(** * qsonic-fit: the orchestration script of the continuum-fitting pipeline

    A shallow embedding of [py/qsonic/scripts/qsonic_fit.py].  The script
    drives collaborators that live in other modules of the package (catalog
    and spectrum readers, the maskers, the continuum fitter, the delta
    writer).  They appear here as the fields of the class [Qsonic]; the
    script itself is embedded function by function in a small state and
    exception monad over a store of spectrum objects and a chronological
    log of the calls the script makes. *)

From Stdlib Require Import ZArith Floats Lia Sorted.
From stdpp Require Import base option list gmap strings.

Local Open Scope string_scope.
Local Open Scope list_scope.

(* Decimal literals denote the nearest binary64 value, as in Python. *)
#[local] Set Warnings "-inexact-float".

(** ** Python values *)

Module Py.

(** The exception classes that matter to the script.  [SystemExit] and
    [KeyboardInterrupt] derive from [BaseException] only, so a clause
    [except Exception] lets them through. *)
Inductive ExnClass :=
| IndexError | ValueError | KeyError | OSError | RuntimeError | ImportError
| SystemExit | KeyboardInterrupt.

Definition is_Exception (c : ExnClass) : bool :=
  match c with
  | SystemExit | KeyboardInterrupt => false
  | _ => true
  end.

Record Exn := mkExn { exn_class : ExnClass; exn_msg : string }.

(** Truth value of an optional string ([None] and [''] are false). *)
Definition truthy_str (o : option string) : bool :=
  match o with
  | Some s => negb (String.eqb s "")
  | None => false
  end.

(** Truth value of an optional float ([None], [0.0] and [-0.0] are false;
    NaN is true). *)
Definition truthy_float (o : option float) : bool :=
  match o with
  | Some x => negb (PrimFloat.eqb x 0)
  | None => false
  end.

(** [a > b] on floats. *)
Definition gt (a b : float) : bool := PrimFloat.ltb b a.

End Py.

(** ** Data model *)

(** One instrument arm of a spectrum: equal-length pixel arrays. *)
Record Arm := mkArm {
  wave : list float;
  flux : list float;
  ivar : list float;
  ivar_sm : option (list float)
}.

(** One quasar observation.  The per-arm arrays are a dictionary keyed by
    the arm name. *)
Record Spectrum := mkSpectrum {
  targetid : Z;
  rsnr : float;
  arms : gmap string Arm;
  forest_window : option (float * float);
  cont_params : option (float * float);
  cont_valid : bool
}.

(** A row of the quasar catalog and the catalog slice of one healpix. *)
Record CatRow := mkCatRow { TARGETID : Z; HPXPIXEL : Z }.
Definition Catalog := list CatRow.

Record SkyMask := mkSkyMask { sky_bands : list (float * float) }.

Record DLAMask := mkDLAMask {
  dla_catalog : list (Z * float * float);
  dla_mask_limit : float
}.

(** The elements of the [maskers] list: a [SkyMask] instance, the [BALMask]
    class itself, a [DLAMask] instance. *)
Inductive Masker :=
| MSky (m : SkyMask)
| MBALClass
| MDLA (m : DLAMask).

(** The state of the continuum fitter that the script reads back. *)
Record Fitter := mkFitter {
  meancont : list float;
  varlss_interp : list float
}.

(** The options of the script, an [argparse.Namespace]. *)
Record Args := mkArgs {
  input_dir : string;
  catalog : string;
  outdir : option string;
  arm_names : list string;
  mock_analysis : bool;
  skip_resomat : bool;
  keep_surveys : list string;
  wave1 : float;
  wave2 : float;
  forest_w1 : float;
  forest_w2 : float;
  keep_nonforest_pixels : bool;
  min_rsnr : float;
  skip : option float;
  sky_mask : option string;
  bal_mask : bool;
  dla_mask : option string;
  coadd_arms : bool;
  save_by_hpx : bool
}.

(** A spectrum object is known by its address in the store. *)
Abbreviation ref := nat (only parsing).

(** A Python list of spectrum objects: its identity and its items. *)
Record PyList := mkList { list_id : nat; items : list ref }.

(** ** Calls the script makes *)

(** Methods of a spectrum object that mutate it. *)
Inductive Method :=
| set_forest_region (w1 w2 lya1 lya2 : float)
| remove_nonforest_pixels
| masker_apply (m : Masker)
| drop_short_arms (a : option (float * float * option float))
| set_smooth_ivar
| coadd_arms_forest (varlss : list float).

(** Calls to the collaborating modules. *)
Inductive Call :=
| c_import_mpi4py
| c_Get_rank
| c_Get_size
| c_logging_basicConfig (level : string)
| c_logging_captureWarnings (capture : bool)
| c_mpi_parse (rank : nat)
| c_os_makedirs (dir : option string)
| c_mpi_read_local_qso_catalog (fname : string) (rank size : nat)
    (is_mock : bool) (surveys : list string)
| c_set_blinding (q : list Catalog)
| c_SkyMask (fname : option string)
| c_BALMask_check_catalog (cat : Catalog)
| c_DLAMask (fname : option string) (local_targetids : list Z)
    (limit : float)
| c_read_spectra_onehealpix (cat : Catalog) (dir : string)
    (arms : list string) (is_mock skip_resomat : bool)
| c_comm_reduce (n : nat)
| c_PiccaContinuumFitter
| c_iterate (spectra : list ref)
| c_save_deltas (spectra : list ref) (dir : option string)
    (varlss : list float) (by_hpx : bool) (rank : nat).

Inductive Event :=
| EvLog (level msg : string)
| EvMethod (r : ref) (m : Method)
| EvCall (c : Call).

(** ** The collaborators *)

Record IterResult := mkIter {
  it_exn : option Py.Exn;
  it_fitter : Fitter;
  it_update : nat -> Spectrum -> Spectrum
}.

Class Qsonic := {
  import_mpi4py : option Py.Exn;
  comm_Get_rank : Py.Exn + nat;
  comm_Get_size : Py.Exn + nat;
  logging_basicConfig : string -> option Py.Exn;
  logging_captureWarnings : bool -> option Py.Exn;
  mpi_parse : nat -> Py.Exn + Args;
  os_makedirs : option string -> option Py.Exn;
  mpi_read_local_qso_catalog :
    string -> nat -> nat -> bool -> list string -> Py.Exn + list Catalog;
  set_blinding : list Catalog -> Args -> option Py.Exn;
  SkyMask_init : option string -> Py.Exn + SkyMask;
  BALMask_check_catalog : Catalog -> option Py.Exn;
  DLAMask_init : option string -> list Z -> float -> Py.Exn + DLAMask;
  read_spectra_onehealpix :
    Catalog -> string -> list string -> bool -> bool ->
    Py.Exn + list Spectrum;
  do_set_forest_region : float -> float -> float -> float ->
                         Spectrum -> Spectrum;
  do_remove_nonforest_pixels : Spectrum -> Spectrum;
  SkyMask_apply : SkyMask -> Spectrum -> Spectrum;
  BALMask_apply : Spectrum -> Spectrum;
  DLAMask_apply : DLAMask -> Spectrum -> Spectrum;
  min_valid_pixels : option (float * float * option float) -> nat;
  is_long : Spectrum -> float -> option float -> bool;
  do_set_smooth_ivar : Spectrum -> Spectrum;
  PiccaContinuumFitter_init : Args -> Py.Exn + Fitter;
  iterate : Fitter -> list Spectrum -> IterResult;
  do_coadd_arms_forest : list float -> Spectrum -> Spectrum;
  save_deltas :
    list Spectrum -> option string -> list float -> bool -> nat ->
    option Py.Exn
}.

(** Number of valid pixels of an arm: inverse variance 0 marks a masked
    pixel. *)
Definition count_valid (a : Arm) : nat :=
  length (List.filter (fun x => Py.gt x 0) (ivar a)).

(** Modelled from the spec: [Spectrum.drop_short_arms] of module
    [qsonic.spectrum], absent from the script.  Every arm with fewer than
    the minimum number of valid pixels is removed from the spectrum. *)
Definition do_drop_short_arms (minpix : nat) (s : Spectrum) : Spectrum :=
  {| targetid := targetid s;
     rsnr := rsnr s;
     arms := filter (fun kv => minpix <= count_valid kv.2) (arms s);
     forest_window := forest_window s;
     cont_params := cont_params s;
     cont_valid := cont_valid s |}.

(** Modelled from the spec: [qsonic.spectrum.valid_spectra], absent from
    the script.  Only the spectra whose continuum fit is valid pass. *)
Definition valid_spectra (heap : list Spectrum) (l : list ref) : list ref :=
  List.filter
    (fun r => match heap !! r with
              | Some s => cont_valid s
              | None => false
              end) l.

(** Modelled from the spec: the constructor of [qsonic.masks.DLAMask],
    absent from the script.  The minimum transmission floor is its
    keyword argument [dla_mask_limit], "configurable, default ~0.8": the
    masker keeps the floor it is built with, which is 0.8 when the
    argument is not given.  Reading the detections is left to the
    collaborator. *)
Definition DLAMask_new `{Q : Qsonic} (fname : option string)
    (local_targetids : list Z) (limit : option float)
  : Py.Exn + DLAMask :=
  let lim := default 0.8%float limit in
  match DLAMask_init fname local_targetids lim with
  | inl e => inl e
  | inr d => inr {| dla_catalog := dla_catalog d; dla_mask_limit := lim |}
  end.

(** The collaborators [Q], the DLA masker being constructed as modelled
    above. *)
Definition with_dla_model (Q : Qsonic) : Qsonic :=
  {| import_mpi4py := @import_mpi4py Q;
     comm_Get_rank := @comm_Get_rank Q;
     comm_Get_size := @comm_Get_size Q;
     logging_basicConfig := @logging_basicConfig Q;
     logging_captureWarnings := @logging_captureWarnings Q;
     mpi_parse := @mpi_parse Q;
     os_makedirs := @os_makedirs Q;
     mpi_read_local_qso_catalog := @mpi_read_local_qso_catalog Q;
     set_blinding := @set_blinding Q;
     SkyMask_init := @SkyMask_init Q;
     BALMask_check_catalog := @BALMask_check_catalog Q;
     DLAMask_init := fun fname tids lim =>
       @DLAMask_new Q fname tids (Some lim);
     read_spectra_onehealpix := @read_spectra_onehealpix Q;
     do_set_forest_region := @do_set_forest_region Q;
     do_remove_nonforest_pixels := @do_remove_nonforest_pixels Q;
     SkyMask_apply := @SkyMask_apply Q;
     BALMask_apply := @BALMask_apply Q;
     DLAMask_apply := @DLAMask_apply Q;
     min_valid_pixels := @min_valid_pixels Q;
     is_long := @is_long Q;
     do_set_smooth_ivar := @do_set_smooth_ivar Q;
     PiccaContinuumFitter_init := @PiccaContinuumFitter_init Q;
     iterate := @iterate Q;
     do_coadd_arms_forest := @do_coadd_arms_forest Q;
     save_deltas := @save_deltas Q |}.

(** What the spec leaves open in the three methods modelled below: how
    an inverse variance is smoothed, and the name and the pixels of the
    arm that coaddition makes. *)
Record ArmModel := mkArmModel {
  smooth : Arm -> list float;
  coadd_name : string;
  coadd : list float -> gmap string Arm -> Arm
}.

(** Modelled from the spec: [Spectrum.set_smooth_ivar], absent from the
    script.  Every arm receives its smoothed inverse variance, "a
    noise-reduced copy used only as fitting weight, never as the
    authoritative variance"; nothing else changes. *)
Definition spec_set_smooth_ivar (S : ArmModel) (s : Spectrum) : Spectrum :=
  {| targetid := targetid s;
     rsnr := rsnr s;
     arms := (fun a => {| wave := wave a; flux := flux a; ivar := ivar a;
                          ivar_sm := Some (smooth S a) |}) <$> arms s;
     forest_window := forest_window s;
     cont_params := cont_params s;
     cont_valid := cont_valid s |}.

(** Modelled from the spec: what the continuum fitter does to a spectrum,
    absent from the script.  The per-object solver has "no side effects
    beyond writing the fitted (a,b) onto the spectrum", with the validity
    of the fit that [valid_spectra] reads; [fitted] carries the outcome
    of the fit. *)
Definition spec_write_fit (fitted s : Spectrum) : Spectrum :=
  {| targetid := targetid s;
     rsnr := rsnr s;
     arms := arms s;
     forest_window := forest_window s;
     cont_params := cont_params fitted;
     cont_valid := cont_valid fitted |}.

(** The outcome of [qcfit.iterate] then: what it raises and the fitter
    it leaves are the collaborator's, each spectrum receives its fit. *)
Definition spec_iterate (res : IterResult) : IterResult :=
  {| it_exn := it_exn res;
     it_fitter := it_fitter res;
     it_update := fun i s => spec_write_fit (it_update res i s) s |}.

(** Modelled from the spec: [Spectrum.coadd_arms_forest], absent from the
    script.  The spectrum is "coadded across arms": the arms it has are
    combined into one arm, which takes their place. *)
Definition spec_coadd_arms_forest (S : ArmModel) (varlss : list float)
    (s : Spectrum) : Spectrum :=
  {| targetid := targetid s;
     rsnr := rsnr s;
     arms := if Nat.eqb (size (arms s)) 0 then ∅
             else {[ coadd_name S := coadd S varlss (arms s) ]};
     forest_window := forest_window s;
     cont_params := cont_params s;
     cont_valid := cont_valid s |}.

(** The collaborators [Q], the three methods being as modelled above. *)
Definition with_arm_model (Q : Qsonic) (S : ArmModel) : Qsonic :=
  {| import_mpi4py := @import_mpi4py Q;
     comm_Get_rank := @comm_Get_rank Q;
     comm_Get_size := @comm_Get_size Q;
     logging_basicConfig := @logging_basicConfig Q;
     logging_captureWarnings := @logging_captureWarnings Q;
     mpi_parse := @mpi_parse Q;
     os_makedirs := @os_makedirs Q;
     mpi_read_local_qso_catalog := @mpi_read_local_qso_catalog Q;
     set_blinding := @set_blinding Q;
     SkyMask_init := @SkyMask_init Q;
     BALMask_check_catalog := @BALMask_check_catalog Q;
     DLAMask_init := @DLAMask_init Q;
     read_spectra_onehealpix := @read_spectra_onehealpix Q;
     do_set_forest_region := @do_set_forest_region Q;
     do_remove_nonforest_pixels := @do_remove_nonforest_pixels Q;
     SkyMask_apply := @SkyMask_apply Q;
     BALMask_apply := @BALMask_apply Q;
     DLAMask_apply := @DLAMask_apply Q;
     min_valid_pixels := @min_valid_pixels Q;
     is_long := @is_long Q;
     do_set_smooth_ivar := spec_set_smooth_ivar S;
     PiccaContinuumFitter_init := @PiccaContinuumFitter_init Q;
     iterate := fun qcfit specs =>
       spec_iterate (@iterate Q qcfit specs);
     do_coadd_arms_forest := spec_coadd_arms_forest S;
     save_deltas := @save_deltas Q |}.

(** ** The store and the monad of the script *)

(** The store of spectrum objects, the number of list objects created so
    far, and the calls made so far, oldest first. *)
Record World := mkWorld {
  heap : list Spectrum;
  nlists : nat;
  log : list Event
}.

Inductive Res (A : Type) :=
| Ok (a : A)
| Raise (e : Py.Exn).
Arguments Ok {A} a.
Arguments Raise {A} e.

(** A computation returns or raises; either way the store keeps the
    mutations made up to that point. *)
Definition M (A : Type) : Type := World -> Res A * World.

Definition ret {A} (a : A) : M A := fun w => (Ok a, w).

Definition bind {A B} (m : M A) (k : A -> M B) : M B :=
  fun w =>
    match m w with
    | (Ok a, w') => k a w'
    | (Raise e, w') => (Raise e, w')
    end.

Definition raise {A} (e : Py.Exn) : M A := fun w => (Raise e, w).

(** [try: m except Exception as e: h e] *)
Definition try_except {A} (m : M A) (h : Py.Exn -> M A) : M A :=
  fun w =>
    match m w with
    | (Ok a, w') => (Ok a, w')
    | (Raise e, w') =>
        if Py.is_Exception (Py.exn_class e) then h e w' else (Raise e, w')
    end.

Declare Scope py_scope.
Delimit Scope py_scope with py.
Notation "x <- m ;; k" := (bind m (fun x => k))
  (at level 100, m at level 99, k at level 200, right associativity)
  : py_scope.
Notation "m ;; k" := (bind m (fun _ => k))
  (at level 100, k at level 200, right associativity) : py_scope.
Local Open Scope py_scope.

Definition emit (e : Event) : M unit :=
  fun w => (Ok tt, {| heap := heap w; nlists := nlists w;
                      log := log w ++ [e] |}).

Definition get_heap : M (list Spectrum) := fun w => (Ok (heap w), w).

Definition lift_exn {A} (x : Py.Exn + A) : M A :=
  match x with
  | inl e => raise e
  | inr a => ret a
  end.

Definition check_exn (x : option Py.Exn) : M unit :=
  match x with
  | Some e => raise e
  | None => ret tt
  end.

(** [logging_mpi(msg, mpi_rank, level)] *)
Definition logging_mpi (msg : string) (level : string) : M unit :=
  emit (EvLog level msg).

(** New spectrum objects enter the store at fresh addresses. *)
Definition alloc_spectra (l : list Spectrum) : M (list ref) :=
  fun w => (Ok (seq (length (heap w)) (length l)),
            {| heap := heap w ++ l; nlists := nlists w; log := log w |}).

(** A new list object. *)
Definition new_list (l : list ref) : M PyList :=
  fun w => (Ok {| list_id := nlists w; items := l |},
            {| heap := heap w; nlists := S (nlists w); log := log w |}).

Fixpoint for_each {A} (l : list A) (body : A -> M unit) : M unit :=
  match l with
  | [] => ret tt
  | x :: l' => body x ;; for_each l' body
  end.

(** The spectra a list of references denotes in a store. *)
Definition deref (h : list Spectrum) (l : list ref) : list Spectrum :=
  omap (fun r => h !! r) l.

Section Script.

Context `{Q : Qsonic}.

(** Dynamic dispatch of [masker.apply(spec)]. *)
Definition apply_masker (m : Masker) (s : Spectrum) : Spectrum :=
  match m with
  | MSky k => SkyMask_apply k s
  | MBALClass => BALMask_apply s
  | MDLA d => DLAMask_apply d s
  end.

Definition method_sem (m : Method) (s : Spectrum) : Spectrum :=
  match m with
  | set_forest_region w1 w2 lya1 lya2 =>
      do_set_forest_region w1 w2 lya1 lya2 s
  | remove_nonforest_pixels => do_remove_nonforest_pixels s
  | masker_apply k => apply_masker k s
  | drop_short_arms a => do_drop_short_arms (min_valid_pixels a) s
  | set_smooth_ivar => do_set_smooth_ivar s
  | coadd_arms_forest v => do_coadd_arms_forest v s
  end.

(** [spec.m(...)]: the object at [r] is mutated in place. *)
Definition call_method (m : Method) (r : ref) : M unit :=
  emit (EvMethod r m) ;;
  fun w => (Ok tt, {| heap := alter (method_sem m) r (heap w);
                      nlists := nlists w; log := log w |}).

(** [spec.rsnr > args.min_rsnr] *)
Definition rsnr_above (h : list Spectrum) (lim : float) (r : ref) : bool :=
  match h !! r with
  | Some s => Py.gt (rsnr s) lim
  | None => false
  end.

(** The body of the loop over [local_queue] in
    [mpi_read_spectra_local_queue]; [acc] is [spectra_list]. *)
Definition read_one_healpix (args : Args) (acc : list ref) (cat : Catalog)
  : M (list ref) :=
  emit (EvCall (c_read_spectra_onehealpix cat (input_dir args)
                  (arm_names args) (mock_analysis args)
                  (skip_resomat args))) ;;
  specs <- lift_exn (read_spectra_onehealpix cat (input_dir args)
                      (arm_names args) (mock_analysis args)
                      (skip_resomat args)) ;;
  local_specs <- alloc_spectra specs ;;
  for_each local_specs (fun spec =>
    call_method (set_forest_region (wave1 args) (wave2 args)
                   (forest_w1 args) (forest_w2 args)) spec ;;
    if negb (keep_nonforest_pixels args)
    then call_method remove_nonforest_pixels spec
    else ret tt) ;;
  h <- get_heap ;;
  ret (acc ++ List.filter (rsnr_above h (min_rsnr args)) local_specs).

Fixpoint read_queue (args : Args) (acc : list ref) (q : list Catalog)
  : M (list ref) :=
  match q with
  | [] => ret acc
  | cat :: q' =>
      acc' <- read_one_healpix args acc cat ;;
      read_queue args acc' q'
  end.

Definition mpi_read_spectra_local_queue
    (local_queue : list Catalog) (args : Args) (mpi_rank : nat)
  : M PyList :=
  logging_mpi "Reading spectra." "info" ;;
  spectra_list <- new_list [] ;;
  its <- read_queue args (items spectra_list) local_queue ;;
  emit (EvCall (c_comm_reduce (length its))) ;;
  logging_mpi "All {nspec_all} spectra are read in {etime:.1f} mins."
    "info" ;;
  ret {| list_id := list_id spectra_list; items := its |}.

(** [local_queue[0]] *)
Definition first_catalog (local_queue : list Catalog) : M Catalog :=
  match local_queue with
  | cat :: _ => ret cat
  | [] => raise (Py.mkExn Py.IndexError "list index out of range")
  end.

(** [np.concatenate([cat['TARGETID'] for cat in local_queue])] *)
Definition concatenate_targetids (local_queue : list Catalog)
  : M (list Z) :=
  match local_queue with
  | [] => raise (Py.mkExn Py.ValueError
                   "need at least one array to concatenate")
  | _ => ret (concat (map (map TARGETID) local_queue))
  end.

Definition mpi_read_masks
    (local_queue : list Catalog) (args : Args) (mpi_rank : nat)
  : M (list Masker) :=
  let maskers := [] in
  maskers <-
    (if Py.truthy_str (sky_mask args) then
       logging_mpi "Reading sky mask." "info" ;;
       emit (EvCall (c_SkyMask (sky_mask args))) ;;
       skymasker <- lift_exn (SkyMask_init (sky_mask args)) ;;
       ret (maskers ++ [MSky skymasker])
     else ret maskers) ;;
  maskers <-
    (if bal_mask args then
       logging_mpi "Checking BAL mask." "info" ;;
       cat <- first_catalog local_queue ;;
       emit (EvCall (c_BALMask_check_catalog cat)) ;;
       check_exn (BALMask_check_catalog cat) ;;
       ret (maskers ++ [MBALClass])
     else ret maskers) ;;
  maskers <-
    (if Py.truthy_str (dla_mask args) then
       logging_mpi "Reading DLA mask." "info" ;;
       local_targetids <- concatenate_targetids local_queue ;;
       emit (EvCall (c_DLAMask (dla_mask args) local_targetids 0.8)) ;;
       dlamasker <- lift_exn (DLAMask_init (dla_mask args)
                                local_targetids 0.8) ;;
       ret (maskers ++ [MDLA dlamasker])
     else ret maskers) ;;
  ret maskers.

Definition apply_masks
    (maskers : list Masker) (spectra_list : PyList) (mpi_rank : nat)
  : M unit :=
  match maskers with
  | [] => ret tt
  | _ =>
      logging_mpi "Applying masks." "info" ;;
      for_each (items spectra_list) (fun spec =>
        for_each maskers (fun masker =>
          call_method (masker_apply masker) spec) ;;
        call_method (drop_short_arms None) spec) ;;
      logging_mpi "Masks are applied in {etime:.1f} mins." "info"
  end.

(** [spec.is_long(dforest_wave, skip_ratio)] *)
Definition spec_is_long (h : list Spectrum) (dforest_wave : float)
    (skip_ratio : option float) (r : ref) : bool :=
  match h !! r with
  | Some s => is_long s dforest_wave skip_ratio
  | None => false
  end.

Definition remove_short_spectra
    (spectra_list : PyList) (lya1 lya2 : float)
    (skip_ratio : option float) (mpi_rank : nat)
  : M PyList :=
  if negb (Py.truthy_float skip_ratio) then ret spectra_list
  else
    logging_mpi "Removing short spectra." "info" ;;
    let dforest_wave := PrimFloat.sub lya2 lya1 in
    h <- get_heap ;;
    new_list (List.filter (spec_is_long h dforest_wave skip_ratio)
                (items spectra_list)).

(** The in-place updates [qcfit.iterate] makes to the spectra it is
    given; [i] is the position in the list. *)
Fixpoint apply_updates (upd : nat -> Spectrum -> Spectrum) (i : nat)
    (l : list ref) (h : list Spectrum) : list Spectrum :=
  match l with
  | [] => h
  | r :: l' => apply_updates upd (S i) l' (alter (upd i) r h)
  end.

(** [qcfit.iterate(spectra_list)]: the fitter and the spectra are
    mutated; the call may raise. *)
Definition fitter_iterate (qcfit : Fitter) (spectra_list : PyList)
  : M Fitter :=
  emit (EvCall (c_iterate (items spectra_list))) ;;
  h <- get_heap ;;
  let res := iterate qcfit (deref h (items spectra_list)) in
  (fun w => (Ok tt,
             {| heap := apply_updates (it_update res) 0
                          (items spectra_list) (heap w);
                nlists := nlists w; log := log w |})) ;;
  check_exn (it_exn res) ;;
  ret (it_fitter res).

Definition mpi_run_all (mpi_rank mpi_size : nat) : M unit :=
  emit (EvCall (c_mpi_parse mpi_rank)) ;;
  args <- lift_exn (mpi_parse mpi_rank) ;;
  (if Nat.eqb mpi_rank 0 && Py.truthy_str (outdir args) then
     emit (EvCall (c_os_makedirs (outdir args))) ;;
     check_exn (os_makedirs (outdir args))
   else ret tt) ;;
  emit (EvCall (c_mpi_read_local_qso_catalog (catalog args) mpi_rank
                  mpi_size (mock_analysis args) (keep_surveys args))) ;;
  local_queue <- lift_exn (mpi_read_local_qso_catalog (catalog args)
                             mpi_rank mpi_size (mock_analysis args)
                             (keep_surveys args)) ;;
  emit (EvCall (c_set_blinding local_queue)) ;;
  check_exn (set_blinding local_queue args) ;;
  maskers <- mpi_read_masks local_queue args mpi_rank ;;
  spectra_list <- mpi_read_spectra_local_queue local_queue args
                    mpi_rank ;;
  apply_masks maskers spectra_list mpi_rank ;;
  spectra_list <- remove_short_spectra spectra_list (forest_w1 args)
                    (forest_w2 args) (skip args) mpi_rank ;;
  for_each (items spectra_list) (call_method set_smooth_ivar) ;;
  logging_mpi "Initializing continuum fitter." "info" ;;
  emit (EvCall c_PiccaContinuumFitter) ;;
  qcfit <- lift_exn (PiccaContinuumFitter_init args) ;;
  logging_mpi "Fitting continuum." "info" ;;
  qcfit <- fitter_iterate qcfit spectra_list ;;
  h <- get_heap ;;
  spectra_list <- new_list (valid_spectra h (items spectra_list)) ;;
  (if coadd_arms args then
     logging_mpi "Coadding arms." "info" ;;
     for_each (items spectra_list)
       (call_method (coadd_arms_forest (varlss_interp qcfit)))
   else ret tt) ;;
  for_each (items spectra_list)
    (call_method (drop_short_arms
                    (Some (forest_w1 args, forest_w2 args, skip args)))) ;;
  logging_mpi "Continuum fitting and tweaking took {etime:.1f} mins."
    "info" ;;
  logging_mpi "Saving deltas." "info" ;;
  h <- get_heap ;;
  emit (EvCall (c_save_deltas (items spectra_list) (outdir args)
                  (varlss_interp qcfit) (save_by_hpx args) mpi_rank)) ;;
  check_exn (save_deltas (deref h (items spectra_list)) (outdir args)
               (varlss_interp qcfit) (save_by_hpx args) mpi_rank).

(** [main]: the exit status of the script.  The import of [mpi4py], the
    rank and the size of the process and the set-up of [logging] come
    before the [try] statement, so an exception they raise is not
    caught. *)
Definition main : M Z :=
  emit (EvCall c_import_mpi4py) ;;
  check_exn import_mpi4py ;;
  emit (EvCall c_Get_rank) ;;
  mpi_rank <- lift_exn comm_Get_rank ;;
  emit (EvCall c_Get_size) ;;
  mpi_size <- lift_exn comm_Get_size ;;
  emit (EvCall (c_logging_basicConfig "DEBUG")) ;;
  check_exn (logging_basicConfig "DEBUG") ;;
  emit (EvCall (c_logging_captureWarnings true)) ;;
  check_exn (logging_captureWarnings true) ;;
  status <- try_except
              (mpi_run_all mpi_rank mpi_size ;; ret None)
              (fun e => logging_mpi (Py.exn_msg e) "error" ;;
                        ret (Some 1%Z)) ;;
  match status with
  | Some code => ret code
  | None => ret 0%Z
  end.

End Script.

(** ** Auxiliary definitions: what a block of method calls does *)

Section Calls.

Context `{Q : Qsonic}.

Definition call_event (c : ref * Method) : Event := EvMethod c.1 c.2.

(** The store after a sequence of method calls. *)
Definition heap_calls (cs : list (ref * Method)) (h : list Spectrum)
  : list Spectrum :=
  foldl (fun h c => alter (method_sem c.2) c.1 h) h cs.

Definition apply_calls (cs : list (ref * Method)) (w : World) : World :=
  {| heap := heap_calls cs (heap w);
     nlists := nlists w;
     log := log w ++ map call_event cs |}.

Definition run_calls (cs : list (ref * Method)) : M unit :=
  for_each cs (fun c => call_method c.2 c.1).

(** The methods called on the object at [r], in order. *)
Definition calls_on (r : ref) (cs : list (ref * Method)) : list Method :=
  map snd (List.filter (fun c => Nat.eqb c.1 r) cs).

Definition run_methods (ms : list Method) (s : Spectrum) : Spectrum :=
  foldl (fun s m => method_sem m s) s ms.

(** The calls made on one spectrum right after it is read. *)
Definition forest_calls (args : Args) (r : ref) : list (ref * Method) :=
  (r, set_forest_region (wave1 args) (wave2 args)
        (forest_w1 args) (forest_w2 args))
  :: (if negb (keep_nonforest_pixels args)
      then [(r, remove_nonforest_pixels)] else []).

(** The calls [apply_masks] makes on one spectrum. *)
Definition mask_calls (maskers : list Masker) (r : ref)
  : list (ref * Method) :=
  map (fun m => (r, masker_apply m)) maskers ++ [(r, drop_short_arms None)].

Definition setup_events (args : Args) (q : list Catalog)
    (mpi_rank mpi_size : nat) : list Event :=
  EvCall (c_mpi_parse mpi_rank)
  :: (if Nat.eqb mpi_rank 0 && Py.truthy_str (outdir args)
      then [EvCall (c_os_makedirs (outdir args))] else [])
  ++ [EvCall (c_mpi_read_local_qso_catalog (catalog args) mpi_rank
                mpi_size (mock_analysis args) (keep_surveys args));
      EvCall (c_set_blinding q)].

Definition smooth_calls (l : list ref) : list (ref * Method) :=
  map (fun r => (r, set_smooth_ivar)) l.

(** What the log receives between [remove_short_spectra] and the call
    of [qcfit.iterate]. *)
Definition prefit_events (l : list ref) : list Event :=
  map call_event (smooth_calls l)
  ++ [EvLog "info" "Initializing continuum fitter.";
      EvCall c_PiccaContinuumFitter;
      EvLog "info" "Fitting continuum."].

Definition coadd_calls (args : Args) (qcfit : Fitter) (l : list ref)
  : list (ref * Method) :=
  if coadd_arms args
  then map (fun r => (r, coadd_arms_forest (varlss_interp qcfit))) l
  else [].

Definition clean_calls (args : Args) (l : list ref)
  : list (ref * Method) :=
  map (fun r => (r, drop_short_arms
                      (Some (forest_w1 args, forest_w2 args, skip args))))
    l.

Definition output_events (args : Args) (qcfit : Fitter) (l : list ref)
    (mpi_rank : nat) : list Event :=
  (if coadd_arms args then [EvLog "info" "Coadding arms."] else [])
  ++ map call_event (coadd_calls args qcfit l)
  ++ map call_event (clean_calls args l)
  ++ [EvLog "info"
        "Continuum fitting and tweaking took {etime:.1f} mins.";
      EvLog "info" "Saving deltas.";
      EvCall (c_save_deltas l (outdir args) (varlss_interp qcfit)
                (save_by_hpx args) mpi_rank)].

(** What a run that returns has produced stage by stage, and the world
    each stage left. *)
Record Run := mkRun {
  run_args : Args;
  run_queue : list Catalog;
  run_maskers : list Masker;
  run_read : PyList;
  run_kept : PyList;
  run_fitter0 : Fitter;
  run_qcfit : Fitter;
  w_setup : World;
  w_maskers : World;
  w_read : World;
  w_masked : World;
  w_kept : World;
  w_smooth : World;
  w_fit : World
}.

(** The spectra that are valid when the fit returns. *)
Definition run_valid (R : Run) : list ref :=
  valid_spectra (heap (w_fit R)) (items (run_kept R)).

(** The stages of a run of [mpi_run_all] from [w] to [w'], each starting
    in the world the previous one left. *)
Definition complete_run (mpi_rank mpi_size : nat) (w w' : World)
    (R : Run) : Prop :=
  let args := run_args R in
  mpi_parse mpi_rank = inr args /\
  log (w_setup R) =
    log w ++ setup_events args (run_queue R) mpi_rank mpi_size /\
  heap (w_setup R) = heap w /\
  mpi_read_masks (run_queue R) args mpi_rank (w_setup R) =
    (Ok (run_maskers R), w_maskers R) /\
  mpi_read_spectra_local_queue (run_queue R) args mpi_rank (w_maskers R) =
    (Ok (run_read R), w_read R) /\
  apply_masks (run_maskers R) (run_read R) mpi_rank (w_read R) =
    (Ok tt, w_masked R) /\
  remove_short_spectra (run_read R) (forest_w1 args) (forest_w2 args)
    (skip args) mpi_rank (w_masked R) = (Ok (run_kept R), w_kept R) /\
  heap (w_smooth R) =
    heap_calls (smooth_calls (items (run_kept R))) (heap (w_kept R)) /\
  log (w_smooth R) =
    log (w_kept R) ++ prefit_events (items (run_kept R)) /\
  PiccaContinuumFitter_init args = inr (run_fitter0 R) /\
  fitter_iterate (run_fitter0 R) (run_kept R) (w_smooth R) =
    (Ok (run_qcfit R), w_fit R) /\
  heap w' =
    heap_calls (coadd_calls args (run_qcfit R) (run_valid R)
                ++ clean_calls args (run_valid R)) (heap (w_fit R)) /\
  log w' =
    log (w_fit R)
      ++ output_events args (run_qcfit R) (run_valid R) mpi_rank /\
  save_deltas (deref (heap w') (run_valid R)) (outdir args)
    (varlss_interp (run_qcfit R)) (save_by_hpx args) mpi_rank = None.

(** *** A run that returns, computed from the collaborators' answers *)

(** What [mpi_read_masks] logs when every constructor and check passes. *)
Definition masks_events (args : Args) (q : list Catalog) : list Event :=
  (if Py.truthy_str (sky_mask args)
   then [EvLog "info" "Reading sky mask."; EvCall (c_SkyMask (sky_mask args))]
   else [])
  ++ (if bal_mask args
      then EvLog "info" "Checking BAL mask."
           :: match q with
              | cat :: _ => [EvCall (c_BALMask_check_catalog cat)]
              | [] => []
              end
      else [])
  ++ (if Py.truthy_str (dla_mask args)
      then [EvLog "info" "Reading DLA mask.";
            EvCall (c_DLAMask (dla_mask args)
                      (concat (map (map TARGETID) q)) 0.8)]
      else []).

(** The maskers list it then returns. *)
Definition built_maskers (args : Args) (q : list Catalog) : list Masker :=
  (if Py.truthy_str (sky_mask args)
   then match SkyMask_init (sky_mask args) with
        | inr k => [MSky k]
        | inl _ => []
        end
   else [])
  ++ (if bal_mask args then [MBALClass] else [])
  ++ (if Py.truthy_str (dla_mask args)
      then match DLAMask_init (dla_mask args)
                   (concat (map (map TARGETID) q)) 0.8 with
           | inr d => [MDLA d]
           | inl _ => []
           end
      else []).

(** Every masker asked for can be built: the constructors return, and
    the BAL check passes on the first slice of the queue. *)
Definition masks_pass (args : Args) (q : list Catalog) : Prop :=
  (Py.truthy_str (sky_mask args) = true ->
   exists k, SkyMask_init (sky_mask args) = inr k) /\
  (bal_mask args = true ->
   exists cat, q !! 0 = Some cat /\ BALMask_check_catalog cat = None) /\
  (Py.truthy_str (dla_mask args) = true ->
   q <> [] /\
   exists d, DLAMask_init (dla_mask args)
               (concat (map (map TARGETID) q)) 0.8 = inr d).

(** What the reader answers for one healpix. *)
Definition healpix_spectra (args : Args) (cat : Catalog)
  : Py.Exn + list Spectrum :=
  read_spectra_onehealpix cat (input_dir args) (arm_names args)
    (mock_analysis args) (skip_resomat args).

Definition reads_pass (args : Args) (q : list Catalog) : Prop :=
  Forall (fun cat => exists specs, healpix_spectra args cat = inr specs) q.

(** The calls of the loop over the local queue, healpix by healpix: the
    reader, then the forest region of each new spectrum; [n] is the
    number of objects in the store. *)
Fixpoint read_events (args : Args) (n : nat) (q : list Catalog)
  : list Event :=
  match q with
  | [] => []
  | cat :: q' =>
      EvCall (c_read_spectra_onehealpix cat (input_dir args)
                (arm_names args) (mock_analysis args) (skip_resomat args))
      :: match healpix_spectra args cat with
         | inr specs =>
             map call_event
               (flat_map (forest_calls args) (seq n (length specs)))
             ++ read_events args (n + length specs) q'
         | inl _ => []
         end
  end.

(** The store the loop leaves. *)
Fixpoint read_heap (args : Args) (h : list Spectrum) (q : list Catalog)
  : list Spectrum :=
  match q with
  | [] => h
  | cat :: q' =>
      match healpix_spectra args cat with
      | inr specs =>
          read_heap args
            (heap_calls
               (flat_map (forest_calls args)
                  (seq (length h) (length specs)))
               (h ++ specs)) q'
      | inl _ => h
      end
  end.

(** What [mpi_read_spectra_local_queue] logs when it keeps [kept]
    spectra. *)
Definition reader_events (args : Args) (n : nat) (q : list Catalog)
    (kept : nat) : list Event :=
  EvLog "info" "Reading spectra."
  :: read_events args n q
  ++ [EvCall (c_comm_reduce kept);
      EvLog "info" "All {nspec_all} spectra are read in {etime:.1f} mins."].

(** What [apply_masks] logs and the store it leaves. *)
Definition apply_events (maskers : list Masker) (l : list ref)
  : list Event :=
  match maskers with
  | [] => []
  | _ =>
      [EvLog "info" "Applying masks."]
      ++ map call_event (flat_map (mask_calls maskers) l)
      ++ [EvLog "info" "Masks are applied in {etime:.1f} mins."]
  end.

Definition masked_heap (maskers : list Masker) (l : list ref)
    (h : list Spectrum) : list Spectrum :=
  match maskers with
  | [] => h
  | _ => heap_calls (flat_map (mask_calls maskers) l) h
  end.

(** What [remove_short_spectra] logs and the items of the list it
    returns. *)
Definition cut_events (skip_ratio : option float) : list Event :=
  if Py.truthy_float skip_ratio
  then [EvLog "info" "Removing short spectra."] else [].

Definition cut_items (h : list Spectrum) (lya1 lya2 : float)
    (skip_ratio : option float) (l : list ref) : list ref :=
  if Py.truthy_float skip_ratio
  then List.filter (spec_is_long h (PrimFloat.sub lya2 lya1) skip_ratio) l
  else l.

(** What a run hands from stage to stage: the maskers, then after each
    stage the store and the working set. *)
Record Flow := mkFlow {
  fl_maskers : list Masker;
  fl_heap_read : list Spectrum;
  fl_read : list ref;
  fl_heap_masked : list Spectrum;
  fl_kept : list ref;
  fl_heap_smooth : list Spectrum;
  fl_iter : IterResult;
  fl_heap_fit : list Spectrum;
  fl_valid : list ref;
  fl_heap_end : list Spectrum
}.

(** The flow of the run with options [args], catalog partition [q] and
    initial fitter [f0], started with the store [h]. *)
Definition flow (args : Args) (q : list Catalog) (f0 : Fitter)
    (h : list Spectrum) : Flow :=
  let maskers := built_maskers args q in
  let h_read := read_heap args h q in
  let l_read :=
    List.filter (rsnr_above h_read (min_rsnr args))
      (seq (length h) (length h_read - length h)) in
  let h_masked := masked_heap maskers l_read h_read in
  let l_kept :=
    cut_items h_masked (forest_w1 args) (forest_w2 args) (skip args)
      l_read in
  let h_smooth := heap_calls (smooth_calls l_kept) h_masked in
  let res := iterate f0 (deref h_smooth l_kept) in
  let h_fit := apply_updates (it_update res) 0 l_kept h_smooth in
  let l_valid := valid_spectra h_fit l_kept in
  {| fl_maskers := maskers;
     fl_heap_read := h_read;
     fl_read := l_read;
     fl_heap_masked := h_masked;
     fl_kept := l_kept;
     fl_heap_smooth := h_smooth;
     fl_iter := res;
     fl_heap_fit := h_fit;
     fl_valid := l_valid;
     fl_heap_end :=
       heap_calls (coadd_calls args (it_fitter res) l_valid
                   ++ clean_calls args l_valid) h_fit |}.

(** Everything that run logs, stage after stage; [n] is the number of
    objects in the store at the start. *)
Definition flow_events (args : Args) (q : list Catalog)
    (mpi_rank mpi_size n : nat) (F : Flow) : list Event :=
  setup_events args q mpi_rank mpi_size
  ++ masks_events args q
  ++ reader_events args n q (length (fl_read F))
  ++ apply_events (fl_maskers F) (fl_read F)
  ++ cut_events (skip args)
  ++ prefit_events (fl_kept F)
  ++ [EvCall (c_iterate (fl_kept F))]
  ++ output_events args (it_fitter (fl_iter F)) (fl_valid F) mpi_rank.

(** The function [f] on spectra never gives a spectrum an arm called
    [name] that it did not have. *)
Definition never_adds (name : string) (f : Spectrum -> Spectrum) : Prop :=
  forall s, arms s !! name = None -> arms (f s) !! name = None.

(** The object at [r] exists in the store [h] and has no arm [name]. *)
Definition absent (name : string) (r : ref) (h : list Spectrum) : Prop :=
  exists s, h !! r = Some s /\ arms s !! name = None.

(** The stage of the pipeline a method call belongs to: 3 reading and
    forest region, 4 mask application, 6 smoothed inverse variance,
    8 coaddition of the arms, 9 final cleaning. *)
Definition method_stage (m : Method) : nat :=
  match m with
  | set_forest_region _ _ _ _ | remove_nonforest_pixels => 3
  | masker_apply _ | drop_short_arms None => 4
  | set_smooth_ivar => 6
  | coadd_arms_forest _ => 8
  | drop_short_arms (Some _) => 9
  end.

(** The stage of a call to a collaborator: 0 start of the process and
    options, 1 catalog partition, 2 construction of the maskers,
    3 reading, 7 continuum fitting, 10 saving the deltas. *)
Definition call_stage (c : Call) : nat :=
  match c with
  | c_import_mpi4py | c_Get_rank | c_Get_size | c_logging_basicConfig _
  | c_logging_captureWarnings _ | c_mpi_parse _ | c_os_makedirs _ => 0
  | c_mpi_read_local_qso_catalog _ _ _ _ _ | c_set_blinding _ => 1
  | c_SkyMask _ | c_BALMask_check_catalog _ | c_DLAMask _ _ _ => 2
  | c_read_spectra_onehealpix _ _ _ _ _ | c_comm_reduce _ => 3
  | c_PiccaContinuumFitter | c_iterate _ => 7
  | c_save_deltas _ _ _ _ _ => 10
  end.

(** Log messages belong to no stage. *)
Definition stage_of (e : Event) : option nat :=
  match e with
  | EvLog _ _ => None
  | EvMethod _ m => Some (method_stage m)
  | EvCall c => Some (call_stage c)
  end.

Definition stages (es : list Event) : list nat := omap stage_of es.

(** The events are in the order of the stages, all between [lo] and
    [hi]. *)
Definition staged (lo hi : nat) (es : list Event) : Prop :=
  StronglySorted le (stages es) /\
  Forall (fun n => lo <= n <= hi) (stages es).

(** Whatever its outcome, the computation only appends to the log, and
    what it appends is [staged]. *)
Definition emits {A} (lo hi : nat) (m : M A) : Prop :=
  forall w res w',
    m w = (res, w') -> exists es, log w' = log w ++ es /\ staged lo hi es.

(** Recognisers for the calls that construct or check a masker. *)
Definition is_bal_check (e : Event) : bool :=
  match e with
  | EvCall (c_BALMask_check_catalog _) => true
  | _ => false
  end.

Definition sky_stage_passes (args : Args) : Prop :=
  Py.truthy_str (sky_mask args) = false \/
  exists k, SkyMask_init (sky_mask args) = inr k.

Definition is_dla_ctor (e : Event) : bool :=
  match e with
  | EvCall (c_DLAMask _ _ _) => true
  | _ => false
  end.

(** The shape of the log of a reading run: calls to collaborators, log
    messages, and for each spectrum the block of calls that sets its
    forest region. *)
Inductive read_trace (args : Args) : list Event -> Prop :=
| rt_nil : read_trace args []
| rt_call c es :
    call_stage c = 3 -> read_trace args es -> read_trace args (EvCall c :: es)
| rt_log lvl msg es :
    read_trace args es -> read_trace args (EvLog lvl msg :: es)
| rt_spec r es :
    read_trace args es ->
    read_trace args (map call_event (forest_calls args r) ++ es).

(** The world after one healpix has been read and its spectra set up. *)
Definition after_healpix (args : Args) (cat : Catalog)
    (specs : list Spectrum) (w : World) : World :=
  apply_calls
    (flat_map (forest_calls args) (seq (length (heap w)) (length specs)))
    {| heap := heap w ++ specs; nlists := nlists w;
       log := log w ++ [EvCall (c_read_spectra_onehealpix cat
                          (input_dir args) (arm_names args)
                          (mock_analysis args) (skip_resomat args))] |}.


(** The kind of a masker, and the kinds the options ask for, in the order
    [mpi_read_masks] appends them. *)
Inductive MaskerKind := KSky | KBAL | KDLA.

Definition masker_kind (m : Masker) : MaskerKind :=
  match m with
  | MSky _ => KSky
  | MBALClass => KBAL
  | MDLA _ => KDLA
  end.

Definition enabled_kinds (args : Args) : list MaskerKind :=
  (if Py.truthy_str (sky_mask args) then [KSky] else [])
  ++ (if bal_mask args then [KBAL] else [])
  ++ (if Py.truthy_str (dla_mask args) then [KDLA] else []).

(** Whatever its outcome, the computation only appends to the log, and
    every event it appends satisfies [P]. *)
Definition emits_only {A} (P : Event -> Prop) (m : M A) : Prop :=
  forall w res w',
    m w = (res, w') -> exists es, log w' = log w ++ es /\ Forall P es.

(** What the options [args] of the process [mpi_rank] allow an event of
    [mpi_run_all] to be. *)
Definition permitted (mpi_rank : nat) (args : Args) (e : Event) : Prop :=
  match e with
  | EvLog lvl _ => lvl = "info"
  | EvCall (c_os_makedirs d) =>
      mpi_rank = 0 /\ Py.truthy_str d = true /\ d = outdir args
  | EvCall (c_SkyMask f) =>
      Py.truthy_str (sky_mask args) = true /\ f = sky_mask args
  | EvCall (c_BALMask_check_catalog _) => bal_mask args = true
  | EvCall (c_DLAMask f _ lim) =>
      Py.truthy_str (dla_mask args) = true /\ f = dla_mask args
      /\ lim = 0.8%float
  | EvCall (c_save_deltas _ d _ b k) =>
      d = outdir args /\ b = save_by_hpx args /\ k = mpi_rank
  | EvCall _ => True
  | EvMethod _ (set_forest_region a b c d) =>
      a = wave1 args /\ b = wave2 args /\ c = forest_w1 args
      /\ d = forest_w2 args
  | EvMethod _ remove_nonforest_pixels => keep_nonforest_pixels args = false
  | EvMethod _ (masker_apply k) => In (masker_kind k) (enabled_kinds args)
  | EvMethod _ (drop_short_arms None) => enabled_kinds args <> []
  | EvMethod _ (drop_short_arms (Some x)) =>
      x = (forest_w1 args, forest_w2 args, skip args)
  | EvMethod _ set_smooth_ivar => True
  | EvMethod _ (coadd_arms_forest _) => coadd_arms args = true
  end.

(** An event of a run of [mpi_run_all]: the call that parses the options,
    or an event the parsed options allow. *)
Definition run_event (mpi_rank : nat) (e : Event) : Prop :=
  e = EvCall (c_mpi_parse mpi_rank) \/
  exists args, mpi_parse mpi_rank = inr args /\ permitted mpi_rank args e.

(** Whatever its outcome, the computation only appends to the log; if it
    raises, a call of [save_deltas] it logged is the call that raised. *)
Definition saves_last {A} (m : M A) : Prop :=
  forall w res w',
    m w = (res, w') ->
    exists es,
      log w' = log w ++ es /\
      forall e, res = Raise e ->
        forall l d v b k, EvCall (c_save_deltas l d v b k) ∈ es ->
          exists h, save_deltas (deref h l) d v b k = Some e.

Definition is_reduce (e : Event) : bool :=
  match e with
  | EvCall (c_comm_reduce _) => true
  | _ => false
  end.

Definition is_error_log (e : Event) : bool :=
  match e with
  | EvLog lvl _ => String.eqb lvl "error"
  | _ => false
  end.

(** The [try] statement of [main] with the [return 0] that follows it,
    for the process number [mpi_rank] of [mpi_size]. *)
Definition main_try (mpi_rank mpi_size : nat) : M Z :=
  status <- try_except
              (mpi_run_all mpi_rank mpi_size ;; ret None)
              (fun e => logging_mpi (Py.exn_msg e) "error" ;;
                        ret (Some 1%Z)) ;;
  match status with
  | Some code => ret code
  | None => ret 0%Z
  end.

(** The calls [main] makes before its [try] statement when each of them
    returns. *)
Definition preamble_events : list Event :=
  [EvCall c_import_mpi4py; EvCall c_Get_rank; EvCall c_Get_size;
   EvCall (c_logging_basicConfig "DEBUG");
   EvCall (c_logging_captureWarnings true)].

(** The statements of [main] before the [try] pass, and make the process
    number [mpi_rank] of [mpi_size]. *)
Definition preamble_passes (mpi_rank mpi_size : nat) : Prop :=
  import_mpi4py = None /\
  comm_Get_rank = inr mpi_rank /\
  comm_Get_size = inr mpi_size /\
  logging_basicConfig "DEBUG" = None /\
  logging_captureWarnings true = None.

(** The world in which the [try] statement of [main] then starts. *)
Definition started (w : World) : World :=
  {| heap := heap w; nlists := nlists w;
     log := log w ++ preamble_events |}.

End Calls.

(** ** A small concrete world

    Collaborators simple enough to run the script on: two healpixels with
    four quasars, spectra with three arms of three pixels each. *)

Module Demo.

Definition arm_b : Arm :=
  {| wave := [3600; 3601; 3602]%float; flux := [1; 1; 1]%float;
     ivar := [1; 1; 1]%float; ivar_sm := None |}.

Definition arm_r : Arm :=
  {| wave := [5580; 5581; 5800]%float; flux := [1; 1; 1]%float;
     ivar := [1; 1; 0]%float; ivar_sm := None |}.

(** An arm with a single valid pixel. *)
Definition arm_z : Arm :=
  {| wave := [7600; 7601; 7602]%float; flux := [1; 1; 1]%float;
     ivar := [0; 0; 1]%float; ivar_sm := None |}.

Definition spectrum_of (row : CatRow) : Spectrum :=
  {| targetid := TARGETID row;
     rsnr := (if Z.eqb (TARGETID row) 101 then 2.5
              else if Z.eqb (TARGETID row) 102 then 0.5
              else if Z.eqb (TARGETID row) 201 then 1 else 3)%float;
     arms := <["b" := arm_b]> (<["r" := arm_r]> (<["z" := arm_z]> ∅));
     forest_window := None;
     cont_params := None;
     cont_valid := false |}.

Definition queue : list Catalog :=
  [ [ {| TARGETID := 101; HPXPIXEL := 7 |};
      {| TARGETID := 102; HPXPIXEL := 7 |} ];
    [ {| TARGETID := 201; HPXPIXEL := 9 |};
      {| TARGETID := 202; HPXPIXEL := 9 |} ] ].

Definition in_band (bands : list (float * float)) (x : float) : bool :=
  existsb (fun b => PrimFloat.leb b.1 x && PrimFloat.leb x b.2) bands.

Definition mask_arm (bands : list (float * float)) (a : Arm) : Arm :=
  {| wave := wave a; flux := flux a;
     ivar := zip_with (fun x iv => if in_band bands x then 0%float else iv)
               (wave a) (ivar a);
     ivar_sm := ivar_sm a |}.

Definition with_arms (f : gmap string Arm -> gmap string Arm)
    (s : Spectrum) : Spectrum :=
  {| targetid := targetid s; rsnr := rsnr s; arms := f (arms s);
     forest_window := forest_window s; cont_params := cont_params s;
     cont_valid := cont_valid s |}.

Definition fit (s : Spectrum) : Spectrum :=
  {| targetid := targetid s; rsnr := rsnr s; arms := arms s;
     forest_window := forest_window s;
     cont_params := Some (1, 0)%float;
     cont_valid := PrimFloat.leb (rsnr s) 2.5 |}.

Definition args : Args :=
  {| input_dir := "spectra"; catalog := "qso.fits"; outdir := Some "out";
     arm_names := ["b"; "r"; "z"]; mock_analysis := false;
     skip_resomat := false; keep_surveys := ["main"];
     wave1 := 3600; wave2 := 9800; forest_w1 := 1040; forest_w2 := 1200;
     keep_nonforest_pixels := false; min_rsnr := 1; skip := Some 0.2%float;
     sky_mask := Some "sky.txt"; bal_mask := true;
     dla_mask := Some "dla.fits"; coadd_arms := true;
     save_by_hpx := false |}.

(** The same options without any mask and without the length cut. *)
Definition args_plain : Args :=
  {| input_dir := "spectra"; catalog := "qso.fits"; outdir := Some "out";
     arm_names := ["b"; "r"; "z"]; mock_analysis := false;
     skip_resomat := false; keep_surveys := ["main"];
     wave1 := 3600; wave2 := 9800; forest_w1 := 1040; forest_w2 := 1200;
     keep_nonforest_pixels := true; min_rsnr := 1; skip := None;
     sky_mask := None; bal_mask := false;
     dla_mask := None; coadd_arms := false;
     save_by_hpx := false |}.

(** Collaborators for the options [a] and the catalog partition [q],
    with [rd] as the reader of one healpix. *)
Definition world_reading (rd : Catalog -> Py.Exn + list Spectrum)
    (a : Args) (q : list Catalog) : Qsonic :=
  {| import_mpi4py := None;
     comm_Get_rank := inr 0;
     comm_Get_size := inr 1;
     logging_basicConfig := fun _ => None;
     logging_captureWarnings := fun _ => None;
     mpi_parse := fun _ => inr a;
     os_makedirs := fun _ => None;
     mpi_read_local_qso_catalog := fun _ _ _ _ _ => inr q;
     set_blinding := fun _ _ => None;
     SkyMask_init := fun _ => inr {| sky_bands := [(5570, 5590)%float] |};
     BALMask_check_catalog := fun _ => None;
     DLAMask_init := fun _ _ lim =>
       inr {| dla_catalog := []; dla_mask_limit := lim |};
     read_spectra_onehealpix := fun cat _ _ _ _ => rd cat;
     do_set_forest_region := fun _ _ lya1 lya2 s =>
       {| targetid := targetid s; rsnr := rsnr s; arms := arms s;
          forest_window := Some (lya1, lya2);
          cont_params := cont_params s; cont_valid := cont_valid s |};
     do_remove_nonforest_pixels := fun s => s;
     SkyMask_apply := fun k => with_arms (fmap (mask_arm (sky_bands k)));
     BALMask_apply := fun s => s;
     DLAMask_apply := fun _ s => s;
     min_valid_pixels := fun _ => 2;
     is_long := fun s _ _ => bool_decide (1 <= size (arms s));
     do_set_smooth_ivar := with_arms (fmap (fun a =>
       {| wave := wave a; flux := flux a; ivar := ivar a;
          ivar_sm := Some (ivar a) |}));
     PiccaContinuumFitter_init := fun _ =>
       inr {| meancont := [1]%float; varlss_interp := [0]%float |};
     iterate := fun f _ =>
       {| it_exn := None; it_fitter := f; it_update := fun _ => fit |};
     do_coadd_arms_forest := fun _ s => s;
     save_deltas := fun _ _ _ _ _ => None |}.

(** Every healpix is read. *)
Definition world (a : Args) (q : list Catalog) : Qsonic :=
  world_reading (fun cat => inr (map spectrum_of cat)) a q.

Definition w0 : World := {| heap := []; nlists := 0; log := [] |}.

(** All masks on; no mask at all; all masks on and an empty partition. *)
Definition full : Qsonic := world args queue.
Definition plain : Qsonic := world args_plain queue.
Definition empty : Qsonic := world args [].

(** All masks on, and the user interrupts the process while the first
    healpix is read. *)
Definition interrupted : Qsonic :=
  world_reading (fun _ => inl (Py.mkExn Py.KeyboardInterrupt "")) args queue.
Definition interrupted_end : World := (@main interrupted w0).2.

Definition maskers : list Masker :=
  [MSky {| sky_bands := [(5570, 5590)%float] |}; MBALClass;
   MDLA {| dla_catalog := []; dla_mask_limit := 0.8 |}].

(** The worlds the stages of the script leave when run from [w0]. *)
Definition full_masks : World := (@mpi_read_masks full queue args 0 w0).2.
Definition full_read : World :=
  (@mpi_read_spectra_local_queue full queue args 0 w0).2.
Definition full_end : World := (@mpi_run_all full 0 1 w0).2.
Definition empty_masks : World := (@mpi_read_masks empty [] args 0 w0).2.
Definition empty_end : World := (@mpi_run_all empty 0 1 w0).2.
Definition plain_read : World :=
  (@mpi_read_spectra_local_queue plain queue args_plain 0 w0).2.

(** The list the reader returns: the first and the last quasar. *)
Definition kept : PyList := {| list_id := 0; items := [0; 3] |}.

(** Only the DLA mask, and an empty partition; no mask and an empty
    partition. *)
Definition args_dla : Args :=
  {| input_dir := "spectra"; catalog := "qso.fits"; outdir := Some "out";
     arm_names := ["b"; "r"; "z"]; mock_analysis := false;
     skip_resomat := false; keep_surveys := ["main"];
     wave1 := 3600; wave2 := 9800; forest_w1 := 1040; forest_w2 := 1200;
     keep_nonforest_pixels := false; min_rsnr := 1; skip := Some 0.2%float;
     sky_mask := None; bal_mask := false;
     dla_mask := Some "dla.fits"; coadd_arms := true;
     save_by_hpx := false |}.
Definition dla_empty : Qsonic := world args_dla [].
Definition plain_empty : Qsonic := world args_plain [].

Definition plain_empty_end : World := (@mpi_run_all plain_empty 0 1 w0).2.
Definition empty_main_end : World := (@main empty w0).2.
Definition cut : PyList := {| list_id := 1; items := [0; 3] |}.

(** An arm without any valid pixel, and a store whose only spectrum has
    only this arm. *)
Definition dark_arm : Arm :=
  {| wave := [7600; 7601; 7602]%float; flux := [1; 1; 1]%float;
     ivar := [0; 0; 0]%float; ivar_sm := None |}.

Definition dark : Spectrum :=
  {| targetid := 301; rsnr := 2;
     arms := {[ "z" := dark_arm ]};
     forest_window := Some (1040, 1200)%float;
     cont_params := None;
     cont_valid := false |}.

Definition w_dark : World := {| heap := [dark]; nlists := 1; log := [] |}.
Definition l_dark : PyList := {| list_id := 0; items := [0] |}.

(** The collaborators of [full] with the spectrum methods as modelled
    from the spec, and with the constructor of the DLA masker as
    modelled from the spec. *)
Definition arm_model : ArmModel :=
  {| smooth := ivar;
     coadd_name := "brz";
     coadd := fun _ m => default arm_b (m !! "b") |}.

Definition modelled : Qsonic := with_arm_model full arm_model.
Definition modelled_end : World := (@mpi_run_all modelled 0 1 w0).2.
Definition dla_modelled_masks : World :=
  (@mpi_read_masks (with_dla_model full) queue args 0 w0).2.
Definition full_cut : World :=
  (@remove_short_spectra full kept 1040 1200 (Some 0.2%float) 0 full_read).2.

End Demo.

(** * Properties *)

(** ** Running blocks of method calls *)

Section CallFacts.

Context `{Q : Qsonic}.

Lemma apply_calls_nil w : apply_calls [] w = w.
Proof.
  destruct w as [h n l]. unfold apply_calls; simpl.
  by rewrite app_nil_r.
Qed.

Lemma apply_calls_cons c cs w :
  apply_calls (c :: cs) w = apply_calls cs (apply_calls [c] w).
Proof.
  unfold apply_calls; simpl. f_equal.
  by rewrite <- app_assoc.
Qed.

Lemma apply_calls_app cs1 cs2 w :
  apply_calls (cs1 ++ cs2) w = apply_calls cs2 (apply_calls cs1 w).
Proof.
  unfold apply_calls, heap_calls; simpl. f_equal.
  - apply foldl_app.
  - by rewrite map_app, app_assoc.
Qed.

Lemma heap_calls_app cs1 cs2 h :
  heap_calls (cs1 ++ cs2) h = heap_calls cs2 (heap_calls cs1 h).
Proof. apply foldl_app. Qed.

Lemma call_method_eq m r w :
  call_method m r w = (Ok tt, apply_calls [(r, m)] w).
Proof. reflexivity. Qed.

Lemma run_calls_eq cs w : run_calls cs w = (Ok tt, apply_calls cs w).
Proof.
  revert w. induction cs as [|c cs IH]; intros w.
  - by rewrite apply_calls_nil.
  - rewrite apply_calls_cons. destruct c as [r m].
    change (run_calls ((r, m) :: cs) w)
      with (bind (call_method m r) (fun _ => run_calls cs) w).
    unfold bind. rewrite call_method_eq. apply IH.
Qed.

(** A loop whose body is a block of calls is the block of all the calls. *)
Lemma for_each_calls {A} (f : A -> list (ref * Method))
    (body : A -> M unit) (l : list A) w :
  (forall x w0, body x w0 = (Ok tt, apply_calls (f x) w0)) ->
  for_each l body w = (Ok tt, apply_calls (flat_map f l) w).
Proof.
  intros Hbody. revert w. induction l as [|x l IH]; intros w; simpl.
  - by rewrite apply_calls_nil.
  - unfold bind. rewrite Hbody, apply_calls_app. apply IH.
Qed.

Lemma heap_calls_length cs h : length (heap_calls cs h) = length h.
Proof.
  revert h. induction cs as [|c cs IH]; intros h; simpl; [done|].
  unfold heap_calls in *; simpl. rewrite IH. apply length_alter.
Qed.

(** What a block of calls does to one object: the methods called on it,
    in order; the other objects are untouched. *)
Lemma heap_calls_lookup cs h r :
  heap_calls cs h !! r = run_methods (calls_on r cs) <$> (h !! r).
Proof.
  revert h. induction cs as [|[r' m] cs IH]; intros h.
  - simpl. by destruct (h !! r).
  - unfold heap_calls in *; simpl. rewrite IH. unfold calls_on; simpl.
    destruct (Nat.eqb_spec r' r) as [->|Hne]; simpl.
    + rewrite list_lookup_alter_eq, <- option_fmap_compose. reflexivity.
    + by rewrite list_lookup_alter_ne.
Qed.

Lemma calls_on_app r cs1 cs2 :
  calls_on r (cs1 ++ cs2) = calls_on r cs1 ++ calls_on r cs2.
Proof. unfold calls_on. by rewrite List.filter_app, map_app. Qed.

Lemma calls_on_nil r cs :
  (forall c, c ∈ cs -> c.1 <> r) -> calls_on r cs = [].
Proof.
  induction cs as [|[r' m] cs IH]; intros Hc; [done|].
  unfold calls_on in *; simpl.
  destruct (Nat.eqb_spec r' r) as [E|_].
  - exfalso. apply (Hc (r', m)); [left|done].
  - apply IH. intros c' Hc'. apply Hc. by right.
Qed.

Lemma calls_on_other r (f : ref -> list (ref * Method)) l :
  (forall x c, c ∈ f x -> c.1 = x) ->
  r ∉ l -> calls_on r (flat_map f l) = [].
Proof.
  intros Hf Hr. apply calls_on_nil. intros c Hc.
  apply list_elem_of_In, in_flat_map in Hc as (x & Hx & Hc).
  apply list_elem_of_In in Hx, Hc.
  rewrite (Hf x c Hc). intros ->. done.
Qed.

Lemma calls_on_self r cs :
  (forall c, c ∈ cs -> c.1 = r) -> calls_on r cs = map snd cs.
Proof.
  induction cs as [|[r' m] cs IH]; intros Hc; [done|].
  unfold calls_on in *; simpl.
  assert (r' = r) as -> by (apply (Hc (r', m)); left).
  rewrite Nat.eqb_refl; simpl.
  f_equal. apply IH. intros c Hin. apply Hc. by right.
Qed.

(** In a loop over distinct objects, each object receives exactly the
    calls of its own iteration. *)
Lemma calls_on_flat_map r (f : ref -> list (ref * Method)) l :
  (forall x c, c ∈ f x -> c.1 = x) ->
  NoDup l -> r ∈ l -> calls_on r (flat_map f l) = map snd (f r).
Proof.
  intros Hf. induction l as [|x l IH]; intros Hnd Hr.
  - by apply elem_of_nil in Hr.
  - apply NoDup_cons in Hnd as [Hx Hnd]. simpl. rewrite calls_on_app.
    destruct (decide (r = x)) as [->|Hne].
    + rewrite (calls_on_other x f l Hf Hx), app_nil_r.
      apply calls_on_self, Hf.
    + apply elem_of_cons in Hr as [?|Hr]; [done|].
      rewrite IH by done. rewrite calls_on_nil; [done|].
      intros c Hc. by rewrite (Hf x c Hc).
Qed.

Lemma mask_calls_target maskers x c :
  c ∈ mask_calls maskers x -> c.1 = x.
Proof.
  unfold mask_calls. rewrite elem_of_app, list_elem_of_fmap.
  intros [(m & -> & _)|Hc]; [done|].
  apply list_elem_of_singleton in Hc. by subst.
Qed.

End CallFacts.

(** ** Inversion of runs *)

Section MonadFacts.

Lemma bind_inv {A B} (m : M A) (k : A -> M B) w r w' :
  bind m k w = (r, w') ->
  (exists e, m w = (Raise e, w') /\ r = Raise e) \/
  (exists a w1, m w = (Ok a, w1) /\ k a w1 = (r, w')).
Proof.
  unfold bind. destruct (m w) as [[a|e] w1]; intros H.
  - right. eauto.
  - left. exists e. by inversion H.
Qed.

Lemma bind_ok_inv {A B} (m : M A) (k : A -> M B) w b w' :
  bind m k w = (Ok b, w') ->
  exists a w1, m w = (Ok a, w1) /\ k a w1 = (Ok b, w').
Proof.
  intros H. apply bind_inv in H as [(e & _ & ?)|?]; [done|done].
Qed.

Lemma bind_ok {A B} (m : M A) (k : A -> M B) w a w1 :
  m w = (Ok a, w1) -> bind m k w = k a w1.
Proof. unfold bind. by intros ->. Qed.

Lemma bind_raise {A B} (m : M A) (k : A -> M B) w e w1 :
  m w = (Raise e, w1) -> bind m k w = (Raise e, w1).
Proof. unfold bind. by intros ->. Qed.

Lemma lift_exn_ok_inv {A} (x : Py.Exn + A) w a w' :
  lift_exn x w = (Ok a, w') -> x = inr a /\ w' = w.
Proof. destruct x; cbn; intros [= <- <-]; done. Qed.

Lemma check_exn_ok_inv (x : option Py.Exn) w u w' :
  check_exn x w = (Ok u, w') -> x = None /\ w' = w.
Proof. destruct x; cbn; intros [= <-]; done. Qed.

End MonadFacts.

(** Symbolic execution of a run whose collaborators' answers are known. *)
Ltac run_simpl :=
  repeat (progress (cbn [bind ret raise emit lift_exn check_exn logging_mpi
                         get_heap new_list fst snd log heap nlists] in *)
          || unfold bind, ret, raise, emit, lift_exn, check_exn,
               logging_mpi, get_heap, new_list in * ).

(** Membership in an explicit list of events. *)
Ltac in_concrete H :=
  repeat (apply elem_of_cons in H as [H|H]; [try (by inversion H)|]);
  try (by apply elem_of_nil in H).

Section Masks.

Context `{Q : Qsonic}.

(** C10.  With the BAL mask option set, [mpi_read_masks] checks the
    catalog at most once, and only on the first slice of the local
    queue.  With an empty queue the indexing raises [IndexError] (once the
    sky stage has passed) and no check is made; when the function
    returns, the check was made on the first slice, it passed, and the
    [BALMask] class itself is among the maskers. *)
Theorem bal_check_first_catalog_only q args rank w r w' :
  bal_mask args = true ->
  mpi_read_masks q args rank w = (r, w') ->
  exists es,
    log w' = log w ++ es /\
    (List.filter is_bal_check es = [] \/
     exists cat, q !! 0 = Some cat /\
       List.filter is_bal_check es = [EvCall (c_BALMask_check_catalog cat)])
    /\
    (q = [] -> sky_stage_passes args ->
     r = Raise (Py.mkExn Py.IndexError "list index out of range") /\
     List.filter is_bal_check es = []) /\
    (forall maskers, r = Ok maskers ->
       exists cat, q !! 0 = Some cat /\
         BALMask_check_catalog cat = None /\
         List.filter is_bal_check es =
           [EvCall (c_BALMask_check_catalog cat)] /\
         MBALClass ∈ maskers).
Proof.
  intros Hbal. unfold mpi_read_masks, sky_stage_passes.
  rewrite Hbal.
  destruct (Py.truthy_str (sky_mask args)) eqn:Hsky,
    (SkyMask_init (sky_mask args)) as [e1|k] eqn:Ek,
    q as [|cat q]; run_simpl; rewrite ?Ek; cbn.
  all: try match goal with
       | |- context [BALMask_check_catalog ?c] =>
           destruct (BALMask_check_catalog c) as [e2|] eqn:Ec
       end; cbn.
  all: try destruct (Py.truthy_str (dla_mask args)) eqn:Hdla; cbn.
  all: try match goal with
       | |- context [DLAMask_init ?a ?b ?c] =>
           destruct (DLAMask_init a b c) as [e3|d] eqn:Ed
       end; cbn.
  all: intros [= <- <-]; cbn [log]; rewrite <- ?app_assoc;
    eexists; (split; [reflexivity|]); cbn.
  all: repeat split; try (left; reflexivity); try (right; eauto; fail);
    try (intros ? [[=]|[? [=]]]; fail); try done.
  all: try (intros maskers [= <-]; eexists; repeat split; eauto;
            set_solver).
  all: match goal with
       | H : _ \/ _ |- _ => by destruct H as [[=]|[? [=]]]
       end.
Qed.

(** With the DLA mask enabled, every construction of the DLA masker in
    [mpi_read_masks] passes the floor [dla_mask_limit=0.8], whatever the
    options; when the function returns, the masker was constructed once,
    from the target identifiers of the whole local queue and with that
    floor, and it is the last of the maskers. *)
Lemma read_masks_dla q args rank w r w' :
  Py.truthy_str (dla_mask args) = true ->
  mpi_read_masks q args rank w = (r, w') ->
  exists es,
    log w' = log w ++ es /\
    (forall f t lim, EvCall (c_DLAMask f t lim) ∈ es -> lim = 0.8%float) /\
    (forall maskers, r = Ok maskers ->
       let tids := concat (map (map TARGETID) q) in
       exists d,
         DLAMask_init (dla_mask args) tids 0.8 = inr d /\
         last maskers = Some (MDLA d) /\
         List.filter is_dla_ctor es =
           [EvCall (c_DLAMask (dla_mask args) tids 0.8)]).
Proof.
  intros Hdla. unfold mpi_read_masks. rewrite Hdla.
  destruct (Py.truthy_str (sky_mask args)) eqn:Hsky,
    (SkyMask_init (sky_mask args)) as [e1|k] eqn:Ek,
    (bal_mask args) eqn:Hbal, q as [|cat q];
    run_simpl; rewrite ?Ek; cbn.
  all: try match goal with
       | |- context [BALMask_check_catalog ?c] =>
           destruct (BALMask_check_catalog c) as [e2|] eqn:Ec
       end; cbn.
  all: try match goal with
       | |- context [DLAMask_init ?a ?b ?c] =>
           destruct (DLAMask_init a b c) as [e3|d] eqn:Ed
       end; cbn.
  all: intros [= <- <-]; cbn [log]; rewrite <- ?app_assoc;
    eexists; (split; [reflexivity|]); cbn.
  all: split; [intros f t lim Hin; by in_concrete Hin|].
  all: try done.
  all: intros maskers [= <-]; eexists; repeat split; eauto.
Qed.

(** The run of [apply_masks] with at least one masker. *)
Lemma apply_masks_run maskers l rank w :
  maskers <> [] ->
  apply_masks maskers l rank w =
  (Ok tt,
   {| heap := heap_calls (flat_map (mask_calls maskers) (items l)) (heap w);
      nlists := nlists w;
      log := log w ++ [EvLog "info" "Applying masks."]
               ++ map call_event (flat_map (mask_calls maskers) (items l))
               ++ [EvLog "info" "Masks are applied in {etime:.1f} mins."]
   |}).
Proof.
  intros Hne. unfold apply_masks.
  destruct maskers as [|m0 ms]; [done|]. set (maskers := m0 :: ms).
  unfold logging_mpi at 1. unfold bind at 1. cbn [emit].
  unfold bind at 1.
  rewrite (for_each_calls (mask_calls maskers)).
  - unfold logging_mpi, emit, apply_calls; cbn [heap nlists log].
    by rewrite <- !app_assoc.
  - intros x w0. unfold bind at 1.
    rewrite (for_each_calls (fun m => [(x, masker_apply m)])).
    + rewrite call_method_eq, <- apply_calls_app. reflexivity.
    + intros m w1. apply call_method_eq.
Qed.

(** C2.  With the sky, BAL and DLA masks all enabled, the maskers list
    is the sky masker, the BAL class and the DLA masker, in this order,
    and [apply_masks] calls them on every spectrum in this order, front
    to back, then [drop_short_arms]: the log of the calls shows it, and
    so does the spectrum each object ends up holding. *)
Theorem maskers_applied_in_declared_order q args rank w maskers w1 :
  Py.truthy_str (sky_mask args) = true ->
  bal_mask args = true ->
  Py.truthy_str (dla_mask args) = true ->
  mpi_read_masks q args rank w = (Ok maskers, w1) ->
  exists sky dla,
    maskers = [MSky sky; MBALClass; MDLA dla] /\
    forall l rank' w2, exists w3,
      apply_masks maskers l rank' w2 = (Ok tt, w3) /\
      log w3 =
        log w2 ++ [EvLog "info" "Applying masks."]
          ++ flat_map (fun r =>
               [EvMethod r (masker_apply (MSky sky));
                EvMethod r (masker_apply MBALClass);
                EvMethod r (masker_apply (MDLA dla));
                EvMethod r (drop_short_arms None)]) (items l)
          ++ [EvLog "info" "Masks are applied in {etime:.1f} mins."] /\
      forall r, NoDup (items l) -> r ∈ items l ->
        heap w3 !! r =
          (fun s => do_drop_short_arms (min_valid_pixels None)
                      (DLAMask_apply dla
                         (BALMask_apply (SkyMask_apply sky s))))
            <$> heap w2 !! r.
Proof.
  intros Hsky Hbal Hdla. unfold mpi_read_masks.
  rewrite Hsky, Hbal, Hdla.
  destruct (SkyMask_init (sky_mask args)) as [e1|sky] eqn:Ek,
    q as [|cat q]; run_simpl; rewrite ?Ek; cbn; try done.
  destruct (BALMask_check_catalog cat) as [e2|] eqn:Ec; cbn; [done|].
  match goal with
  | |- context [DLAMask_init ?a ?b ?c] =>
      destruct (DLAMask_init a b c) as [e3|dla] eqn:Ed
  end; cbn; [done|].
  intros [= <- <-]. exists sky, dla. split; [done|].
  intros l rank' w2. eexists. split; [by apply apply_masks_run|].
  cbn [log heap]. split.
  - do 2 f_equal. f_equal. generalize (items l). clear.
    induction l as [|r l IH]; [done|]. simpl. by rewrite IH.
  - intros r Hnd Hr. rewrite heap_calls_lookup.
    rewrite calls_on_flat_map by eauto using mask_calls_target.
    reflexivity.
Qed.

End Masks.

Section DLAFloor.

Context `{Q : Qsonic}.

(** C6.  With the DLA mask enabled, the script constructs the DLA masker
    with the floor [dla_mask_limit=0.8]: every construction logged by
    [mpi_read_masks] passes 0.8, whatever the options, and when the
    function returns the masker was constructed once, from the target
    identifiers of the whole local queue, and is the last of the
    maskers.  The constructor being as the spec describes it, that
    masker has the floor 0.8 and is the one the constructor builds by
    default; and the floor is configurable: a masker built with another
    floor has that floor. *)
Theorem dla_masker_floor q args rank w :
  Py.truthy_str (dla_mask args) = true ->
  let tids := concat (map (map TARGETID) q) in
  (forall r w',
     mpi_read_masks q args rank w = (r, w') ->
     exists es,
       log w' = log w ++ es /\
       (forall f t lim, EvCall (c_DLAMask f t lim) ∈ es -> lim = 0.8%float) /\
       (forall maskers, r = Ok maskers ->
          exists d,
            DLAMask_init (dla_mask args) tids 0.8 = inr d /\
            last maskers = Some (MDLA d) /\
            List.filter is_dla_ctor es =
              [EvCall (c_DLAMask (dla_mask args) tids 0.8)])) /\
  (forall maskers w',
     @mpi_read_masks (with_dla_model Q) q args rank w = (Ok maskers, w') ->
     exists d,
       last maskers = Some (MDLA d) /\
       dla_mask_limit d = 0.8%float /\
       DLAMask_new (dla_mask args) tids None = inr d) /\
  (forall fname t x d,
     DLAMask_new fname t (Some x) = inr d -> dla_mask_limit d = x).
Proof.
  intros Hdla tids. split; [|split].
  - intros r w' Hrun. by apply (read_masks_dla q args rank w r w').
  - intros maskers w' Hrun.
    destruct (@read_masks_dla (with_dla_model Q) q args rank w _ _ Hdla Hrun)
      as (es & _ & _ & Hok).
    destruct (Hok maskers eq_refl) as (d & Hd & Hlast & _).
    exists d. split; [done|]. cbn in Hd. fold tids in Hd.
    split; [|exact Hd].
    unfold DLAMask_new in Hd. cbn in Hd.
    destruct (DLAMask_init _ _ _); [done|]. by injection Hd as <-.
  - intros fname t x d. unfold DLAMask_new. cbn.
    destruct (DLAMask_init _ _ _); [done|]. by intros [= <-].
Qed.

End DLAFloor.

Section Filters.

Context `{Q : Qsonic}.

(** C9.  With an empty maskers list [apply_masks] returns at once: the
    store and the log are what they were, so no [drop_short_arms] call is
    made and an arm that is already short stays in its spectrum. *)
Theorem apply_masks_without_maskers l rank w :
  apply_masks [] l rank w = (Ok tt, w) /\
  forall r s name a,
    heap w !! r = Some s ->
    arms s !! name = Some a ->
    count_valid a < min_valid_pixels None ->
    exists s', heap (apply_masks [] l rank w).2 !! r = Some s' /\
               arms s' !! name = Some a.
Proof.
  split; [reflexivity|].
  intros r s name a Hr Ha _. exists s. by split.
Qed.

(** C5.  [remove_short_spectra] hands back the very list it was given,
    in an unchanged world, when [skip_ratio] is [None] or zero;
    otherwise it returns a new list holding, in the original order, the
    spectra for which [is_long(lya2 - lya1, skip_ratio)] holds. *)
Theorem remove_short_spectra_filter l lya1 lya2 skip_ratio rank w :
  (skip_ratio = None \/
   (exists x, skip_ratio = Some x /\ PrimFloat.eqb x 0 = true) ->
   remove_short_spectra l lya1 lya2 skip_ratio rank w = (Ok l, w)) /\
  (forall x, skip_ratio = Some x -> PrimFloat.eqb x 0 = false ->
   exists l' w',
     remove_short_spectra l lya1 lya2 skip_ratio rank w = (Ok l', w') /\
     items l' =
       List.filter
         (fun r => match heap w !! r with
                   | Some s => is_long s (PrimFloat.sub lya2 lya1) skip_ratio
                   | None => false
                   end) (items l) /\
     sublist (items l') (items l) /\
     list_id l' = nlists w /\
     heap w' = heap w).
Proof.
  unfold remove_short_spectra. split.
  - intros [->|(x & -> & Hx)]; [done|]. cbn. by rewrite Hx.
  - intros x -> Hx. cbn. rewrite Hx. cbn. run_simpl.
    eexists _, _. split; [reflexivity|]. cbn. repeat split.
    generalize (items l). clear. intros l.
    induction l as [|r l IH]; simpl; [constructor|].
    unfold spec_is_long at 1.
    destruct (heap w !! r) as [s|]; [destruct (is_long _ _ _)|];
      by constructor.
Qed.

End Filters.

Section Main.

Context `{Q : Qsonic}.

(** Once the statements before it have passed, [main] is its [try]
    statement. *)
Lemma main_started rank size w :
  preamble_passes rank size ->
  main w = main_try rank size (started w).
Proof.
  intros (Himport & Hrank & Hsize & Hconfig & Hcapture).
  unfold main. run_simpl.
  rewrite Himport, Hrank, Hsize, Hconfig, Hcapture. cbn.
  unfold started, preamble_events. by rewrite <- !app_assoc.
Qed.

Lemma main_try_returns_one rank size w e w1 :
  mpi_run_all rank size w = (Raise e, w1) ->
  Py.is_Exception (Py.exn_class e) = true ->
  main_try rank size w =
    (Ok 1%Z, {| heap := heap w1; nlists := nlists w1;
                log := log w1 ++ [EvLog "error" (Py.exn_msg e)] |}).
Proof. unfold main_try, try_except, bind. by intros -> ->. Qed.

(** An exception outside the [Exception] hierarchy goes through the
    [try] statement. *)
Lemma main_try_propagates rank size w e w1 :
  mpi_run_all rank size w = (Raise e, w1) ->
  Py.is_Exception (Py.exn_class e) = false ->
  main_try rank size w = (Raise e, w1).
Proof. unfold main_try, try_except, bind. by intros -> ->. Qed.

Lemma main_try_returns_zero rank size w w1 :
  mpi_run_all rank size w = (Ok tt, w1) ->
  main_try rank size w = (Ok 0%Z, w1).
Proof. unfold main_try, try_except, bind. by intros ->. Qed.

(** C7, amended.  The statements before the [try] having passed: when
    [mpi_run_all] raises an instance of [Exception], [main] logs it as an
    error and returns 1, in the world the failed run left; when it raises
    an exception that is not an instance of [Exception] ([SystemExit],
    [KeyboardInterrupt]), [main] does not catch it and returns no status;
    when [mpi_run_all] returns, [main] returns 0. *)
Theorem main_exit_status rank size w :
  preamble_passes rank size ->
  (forall e w1,
     mpi_run_all rank size (started w) = (Raise e, w1) ->
     (Py.is_Exception (Py.exn_class e) = true ->
      main w =
        (Ok 1%Z, {| heap := heap w1; nlists := nlists w1;
                    log := log w1 ++ [EvLog "error" (Py.exn_msg e)] |})) /\
     (Py.is_Exception (Py.exn_class e) = false ->
      main w = (Raise e, w1))) /\
  (forall w1,
     mpi_run_all rank size (started w) = (Ok tt, w1) ->
     main w = (Ok 0%Z, w1)).
Proof.
  intros Hpre. rewrite (main_started rank size w Hpre). split.
  - intros e w1 Hrun. split; intros He.
    + by apply main_try_returns_one.
    + by apply main_try_propagates.
  - intros w1 Hrun. by apply main_try_returns_zero.
Qed.

End Main.

(** ** Reading the spectra *)

Section Reading.

Context `{Q : Qsonic}.

Lemma read_trace_app args es1 es2 :
  read_trace args es1 -> read_trace args es2 ->
  read_trace args (es1 ++ es2).
Proof.
  induction 1 as [|c es Hc _ IH|lvl msg es _ IH|r es _ IH]; intros H2; simpl.
  - done.
  - constructor; [done|]. by apply IH.
  - constructor. by apply IH.
  - rewrite <- app_assoc. constructor. by apply IH.
Qed.

Lemma read_trace_specs args l :
  read_trace args (map call_event (flat_map (forest_calls args) l)).
Proof.
  induction l as [|r l IH]; [constructor|].
  change (flat_map (forest_calls args) (r :: l))
    with (forest_calls args r ++ flat_map (forest_calls args) l).
  rewrite map_app. by constructor.
Qed.

Lemma forest_calls_target args x c :
  c ∈ forest_calls args x -> c.1 = x.
Proof.
  unfold forest_calls. destruct (negb _); intros Hc.
  - apply elem_of_cons in Hc as [->|Hc]; [done|].
    apply list_elem_of_singleton in Hc. by subst.
  - apply list_elem_of_singleton in Hc. by subst.
Qed.

Lemma read_one_healpix_run args acc cat w :
  read_one_healpix args acc cat w =
  match read_spectra_onehealpix cat (input_dir args) (arm_names args)
          (mock_analysis args) (skip_resomat args) with
  | inl e =>
      (Raise e,
       {| heap := heap w; nlists := nlists w;
          log := log w ++ [EvCall (c_read_spectra_onehealpix cat
                             (input_dir args) (arm_names args)
                             (mock_analysis args) (skip_resomat args))] |})
  | inr specs =>
      let w1 := after_healpix args cat specs w in
      (Ok (acc ++ List.filter (rsnr_above (heap w1) (min_rsnr args))
                    (seq (length (heap w)) (length specs))), w1)
  end.
Proof.
  unfold read_one_healpix.
  destruct (read_spectra_onehealpix _ _ _ _ _) as [e|specs]; [done|].
  run_simpl. unfold alloc_spectra. cbn [heap nlists log].
  rewrite (for_each_calls (forest_calls args)); [done|].
  intros x w0. rewrite call_method_eq. unfold forest_calls.
  destruct (negb _); [|done].
  by rewrite call_method_eq, <- apply_calls_app.
Qed.

Lemma after_healpix_length args cat specs w :
  length (heap (after_healpix args cat specs w)) =
  length (heap w) + length specs.
Proof.
  unfold after_healpix; cbn. by rewrite heap_calls_length, length_app.
Qed.

(** Reading a healpix leaves the objects already in the store alone. *)
Lemma after_healpix_old args cat specs w r :
  r < length (heap w) ->
  heap (after_healpix args cat specs w) !! r = heap w !! r.
Proof.
  intros Hr. unfold after_healpix; cbn.
  rewrite heap_calls_lookup, calls_on_other.
  - rewrite lookup_app_l by done. by destruct (heap w !! r).
  - apply forest_calls_target.
  - rewrite elem_of_seq. lia.
Qed.

Lemma forest_event_logged args l r :
  r ∈ l ->
  EvMethod r (set_forest_region (wave1 args) (wave2 args)
                (forest_w1 args) (forest_w2 args))
  ∈ map call_event (flat_map (forest_calls args) l).
Proof.
  intros Hr. apply list_elem_of_In, in_map_iff.
  eexists (r, _). split; [reflexivity|].
  apply in_flat_map. exists r. split; [by apply list_elem_of_In|].
  by left.
Qed.

(** The loop over the local queue. *)
Lemma read_queue_run args q : forall acc w res w',
  read_queue args acc q w = (res, w') ->
  exists es k,
    log w' = log w ++ es /\
    read_trace args es /\
    nlists w' = nlists w /\
    length (heap w') = length (heap w) + k /\
    (forall r, r < length (heap w) -> heap w' !! r = heap w !! r) /\
    (forall r, length (heap w) <= r < length (heap w') ->
       EvMethod r (set_forest_region (wave1 args) (wave2 args)
                     (forest_w1 args) (forest_w2 args)) ∈ es) /\
    (forall its, res = Ok its ->
       its = acc ++ List.filter (rsnr_above (heap w') (min_rsnr args))
                      (seq (length (heap w)) k)).
Proof.
  induction q as [|cat q IH]; intros acc w res w' Hrun.
  - inversion Hrun; subst. exists [], 0.
    rewrite !app_nil_r, Nat.add_0_r. repeat split; try done.
    + constructor.
    + lia.
    + by intros its [= <-].
  - cbn [read_queue] in Hrun. apply bind_inv in Hrun.
    rewrite read_one_healpix_run in Hrun.
    destruct (read_spectra_onehealpix _ _ _ _ _) as [e|specs].
    + destruct Hrun as [(e' & [= <- <-] & ->)|(? & ? & [=] & _)].
      eexists [_], 0. cbn. rewrite Nat.add_0_r.
      repeat split; try done.
      * by repeat constructor.
      * lia.
    + destruct Hrun as [(e' & [=] & _)|(acc' & w1 & [= <- <-] & Hrest)].
      set (w1 := after_healpix args cat specs w) in *.
      apply IH in Hrest
        as (es & k & Hlog & Htr & Hnl & Hlen & Hold & Hev & Hits).
      pose proof (after_healpix_length args cat specs w) as Hlen1.
      fold w1 in Hlen1.
      eexists (_ :: map call_event (flat_map (forest_calls args)
                 (seq (length (heap w)) (length specs))) ++ es),
              (length specs + k).
      split; [|split; [|split; [|split; [|split; [|split]]]]].
      * rewrite Hlog. unfold w1, after_healpix; cbn.
        by rewrite <- !app_assoc.
      * constructor; [done|].
        apply read_trace_app; [apply read_trace_specs|done].
      * by rewrite Hnl.
      * lia.
      * intros r Hr. rewrite Hold by lia.
        by apply after_healpix_old.
      * intros r Hr. destruct (decide (r < length (heap w1))) as [Hlt|Hge].
        -- right. apply elem_of_app. left. apply forest_event_logged.
           apply elem_of_seq. lia.
        -- right. apply elem_of_app. right. apply Hev. lia.
      * intros its Hres. rewrite (Hits its Hres), <- app_assoc. f_equal.
        rewrite seq_app, List.filter_app, Hlen1. f_equal.
        apply List.filter_ext_in. intros r Hr%in_seq.
        unfold rsnr_above. by rewrite Hold by lia.
Qed.

Lemma mpi_read_spectra_run q args rank w res w' :
  mpi_read_spectra_local_queue q args rank w = (res, w') ->
  exists es k,
    log w' = log w ++ es /\
    read_trace args es /\
    length (heap w') = length (heap w) + k /\
    (forall r, r < length (heap w) -> heap w' !! r = heap w !! r) /\
    (forall r, length (heap w) <= r < length (heap w') ->
       EvMethod r (set_forest_region (wave1 args) (wave2 args)
                     (forest_w1 args) (forest_w2 args)) ∈ es) /\
    nlists w' = S (nlists w) /\
    (forall l, res = Ok l ->
       list_id l = nlists w /\
       items l = List.filter (rsnr_above (heap w') (min_rsnr args))
                   (seq (length (heap w)) k)).
Proof.
  unfold mpi_read_spectra_local_queue. run_simpl.
  destruct (read_queue _ _ _ _) as [[its|e] w1] eqn:Hq;
    apply read_queue_run in Hq
      as (es & k & Hlog & Htr & Hnl & Hlen & Hold & Hev & Hits);
    cbn [heap nlists log] in *; intros [= <- <-]; cbn [heap nlists log].
  - exists (EvLog "info" "Reading spectra." :: es
             ++ [EvCall (c_comm_reduce (length its));
                 EvLog "info"
                   "All {nspec_all} spectra are read in {etime:.1f} mins."]),
           k.
    split; [|split; [|split; [|split; [|split; [|split]]]]]; try done.
    + rewrite Hlog. by rewrite <- !app_assoc.
    + constructor. apply read_trace_app; [done|]. by repeat constructor.
    + intros r Hr. right. apply elem_of_app. left. by apply Hev.
    + intros l [= <-]. cbn. split; [done|]. by apply Hits.
  - exists (EvLog "info" "Reading spectra." :: es), k.
    split; [|split; [|split; [|split; [|split; [|split]]]]]; try done.
    + rewrite Hlog. by rewrite <- !app_assoc.
    + by constructor.
    + intros r Hr. right. by apply Hev.
Qed.

Lemma read_trace_keep args es :
  keep_nonforest_pixels args = true ->
  read_trace args es ->
  forall r, EvMethod r remove_nonforest_pixels ∉ es.
Proof.
  intros Hkeep. induction 1 as [|c es _ _ IH|lvl msg es _ IH|r0 es _ IH];
    intros r Hin.
  - by apply elem_of_nil in Hin.
  - apply elem_of_cons in Hin as [[=]|Hin]. by apply (IH r).
  - apply elem_of_cons in Hin as [[=]|Hin]. by apply (IH r).
  - unfold forest_calls in Hin. rewrite Hkeep in Hin. cbn in Hin.
    apply elem_of_cons in Hin as [[=]|Hin]. by apply (IH r).
Qed.

Lemma read_trace_follow args es :
  read_trace args es ->
  forall i r a b c d,
    es !! i = Some (EvMethod r (set_forest_region a b c d)) ->
    (es !! S i = Some (EvMethod r remove_nonforest_pixels) <->
     keep_nonforest_pixels args = false).
Proof.
  induction 1 as [|c0 es _ _ IH|lvl msg es _ IH|r0 es Htr IH];
    intros i r a b c d Hi.
  - done.
  - destruct i as [|i]; [done|]. by apply (IH i r a b c d).
  - destruct i as [|i]; [done|]. by apply (IH i r a b c d).
  - unfold forest_calls in *.
    destruct (keep_nonforest_pixels args) eqn:Hkeep; cbn in *.
    + destruct i as [|i]; [|by apply (IH i r a b c d)].
      injection Hi as <- _ _ _ _. split; [|done].
      intros Hnext. exfalso.
      apply (read_trace_keep args es Hkeep Htr r0).
      apply list_elem_of_lookup. by exists 0.
    + destruct i as [|[|i]].
      * injection Hi as <- _ _ _ _. done.
      * done.
      * by apply (IH i r a b c d).
Qed.

(** [a > b] fails whenever [a <= b] holds. *)
Lemma gt_not_le (a b : float) :
  PrimFloat.leb a b = true -> Py.gt a b = false.
Proof.
  unfold Py.gt. rewrite ltb_spec, leb_spec. unfold SFltb, SFleb.
  assert (forall x y,
            SFcompare y x = option_map CompOpp (SFcompare x y)) as Hanti.
  { intros [sx|sx| |sx mx ex] [sy|sy| |sy my ey]; simpl;
      try reflexivity; try (destruct sx; reflexivity);
      try (destruct sy; reflexivity);
      try (destruct sx, sy; reflexivity).
    destruct sx, sy; simpl; try reflexivity;
      rewrite (Z.compare_antisym ey ex);
      destruct (ey ?= ex)%Z; simpl; try reflexivity;
      rewrite (Pos.compare_cont_antisym mx my Eq); reflexivity. }
  rewrite (Hanti (Prim2SF a) (Prim2SF b)).
  destruct (SFcompare (Prim2SF a) (Prim2SF b)) as [[]|]; simpl; congruence.
Qed.

(** C4.  The list returned by the reader stage holds exactly the spectra
    read during the call whose [rsnr] is strictly greater than
    [args.min_rsnr]; a spectrum whose [rsnr] is less than or equal to the
    threshold is not in the list. *)
Theorem spectra_kept_iff_rsnr_above q args rank w l w' :
  mpi_read_spectra_local_queue q args rank w = (Ok l, w') ->
  (forall r,
     r ∈ items l <->
     length (heap w) <= r < length (heap w') /\
     exists s, heap w' !! r = Some s /\
               PrimFloat.ltb (min_rsnr args) (rsnr s) = true) /\
  (forall r s,
     heap w' !! r = Some s ->
     PrimFloat.leb (rsnr s) (min_rsnr args) = true ->
     r ∉ items l).
Proof.
  intros Hrun. apply mpi_read_spectra_run in Hrun
    as (es & k & _ & _ & Hlen & _ & _ & _ & Hl).
  destruct (Hl l eq_refl) as [_ Hitems].
  assert (forall r,
    r ∈ items l <->
    length (heap w) <= r < length (heap w') /\
    exists s, heap w' !! r = Some s /\
              PrimFloat.ltb (min_rsnr args) (rsnr s) = true) as Hiff.
  { intros r. rewrite Hitems, list_elem_of_In, List.filter_In, in_seq.
    unfold rsnr_above, Py.gt. rewrite Hlen. split.
    - intros [Hr Hs]. split; [lia|].
      destruct (heap w' !! r) as [s|]; [eauto|done].
    - intros [Hr (s & Hs' & Hs)]. split; [lia|]. by rewrite Hs'. }
  split; [done|].
  intros r s Hs Hle Hin. apply Hiff in Hin as [_ (s' & Hs' & Hgt)].
  rewrite Hs in Hs'. injection Hs' as <-.
  apply gt_not_le in Hle. unfold Py.gt in Hle. congruence.
Qed.

(** C8.  In the log of the reader stage every spectrum read has its
    forest region set, and the call that sets it is followed at once by
    [remove_nonforest_pixels] on the same spectrum exactly when
    [keep_nonforest_pixels] is off; when the option is on, no
    [remove_nonforest_pixels] call is made at all. *)
Theorem nonforest_pixels_removed_iff_not_kept q args rank w res w' :
  mpi_read_spectra_local_queue q args rank w = (res, w') ->
  exists es,
    log w' = log w ++ es /\
    (forall r, length (heap w) <= r < length (heap w') ->
       EvMethod r (set_forest_region (wave1 args) (wave2 args)
                     (forest_w1 args) (forest_w2 args)) ∈ es) /\
    (forall i r a b c d,
       es !! i = Some (EvMethod r (set_forest_region a b c d)) ->
       (es !! S i = Some (EvMethod r remove_nonforest_pixels) <->
        keep_nonforest_pixels args = false)) /\
    (keep_nonforest_pixels args = true ->
     forall r, EvMethod r remove_nonforest_pixels ∉ es).
Proof.
  intros Hrun. apply mpi_read_spectra_run in Hrun
    as (es & k & Hlog & Htr & _ & _ & Hev & _).
  exists es. repeat split; try done.
  - by apply (read_trace_follow args es Htr i r a b c d).
  - by apply (read_trace_follow args es Htr i r a b c d).
  - intros Hkeep. by apply (read_trace_keep args).
Qed.

End Reading.

(** ** The whole run *)

Section Pipeline.

Context `{Q : Qsonic}.

Lemma for_each_method m l w :
  for_each l (call_method m) w =
  (Ok tt, apply_calls (map (fun r => (r, m)) l) w).
Proof.
  rewrite (for_each_calls (fun r => [(r, m)])).
  - reflexivity.
  - intros x w0. apply call_method_eq.
Qed.

(** A run of [mpi_run_all] that returns went through every stage, each
    starting in the world the previous one left, with the catalog
    partition the catalog reader answered. *)
Lemma mpi_run_all_ok_inv_catalog rank size w w' :
  mpi_run_all rank size w = (Ok tt, w') ->
  exists R,
    complete_run rank size w w' R /\
    mpi_read_local_qso_catalog (catalog (run_args R)) rank size
      (mock_analysis (run_args R)) (keep_surveys (run_args R))
      = inr (run_queue R) /\
    set_blinding (run_queue R) (run_args R) = None /\
    (Nat.eqb rank 0 && Py.truthy_str (outdir (run_args R)) = true ->
     os_makedirs (outdir (run_args R)) = None).
Proof.
  unfold mpi_run_all. intros H.
  apply bind_ok_inv in H as ([] & wa & [= <-] & H).
  apply bind_ok_inv in H as (args & wb & Hargs & H).
  apply lift_exn_ok_inv in Hargs as [Hargs ->].
  apply bind_ok_inv in H as ([] & wc & Hdirs & H).
  assert (Nat.eqb rank 0 && Py.truthy_str (outdir args) = true ->
          os_makedirs (outdir args) = None) as Hmk.
  { intros Hb. rewrite Hb in Hdirs.
    apply bind_ok_inv in Hdirs as ([] & wd & _ & Hdirs).
    by apply check_exn_ok_inv in Hdirs as [? _]. }
  assert (wc = {| heap := heap w; nlists := nlists w;
                  log := log w ++ EvCall (c_mpi_parse rank)
                    :: (if Nat.eqb rank 0 && Py.truthy_str (outdir args)
                        then [EvCall (c_os_makedirs (outdir args))]
                        else []) |}) as ->.
  { destruct (Nat.eqb rank 0 && Py.truthy_str (outdir args)).
    - apply bind_ok_inv in Hdirs as ([] & wd & [= <-] & Hdirs).
      apply check_exn_ok_inv in Hdirs as [_ ->]. cbn.
      by rewrite <- app_assoc.
    - by injection Hdirs as <-. }
  clear Hdirs.
  apply bind_ok_inv in H as ([] & wd & [= <-] & H).
  apply bind_ok_inv in H as (q & we & Hq & H).
  apply lift_exn_ok_inv in Hq as [Hq ->].
  apply bind_ok_inv in H as ([] & wf & [= <-] & H).
  apply bind_ok_inv in H as ([] & w1 & Hblind & H).
  apply check_exn_ok_inv in Hblind as [Hblind ->].
  apply bind_ok_inv in H as (maskers & w2 & Hmasks & H).
  apply bind_ok_inv in H as (l1 & w3 & Hread & H).
  apply bind_ok_inv in H as ([] & w4 & Happly & H).
  apply bind_ok_inv in H as (l2 & w5 & Hshort & H).
  apply bind_ok_inv in H as ([] & wg & Hsmooth & H).
  rewrite for_each_method in Hsmooth. injection Hsmooth as <-.
  apply bind_ok_inv in H as ([] & wh & [= <-] & H).
  apply bind_ok_inv in H as ([] & wi & [= <-] & H).
  apply bind_ok_inv in H as (f0 & wj & Hf0 & H).
  apply lift_exn_ok_inv in Hf0 as [Hf0 ->].
  apply bind_ok_inv in H as ([] & w6 & [= <-] & H).
  apply bind_ok_inv in H as (qcfit & w7 & Hfit & H).
  apply bind_ok_inv in H as (h & wk & [= <- <-] & H).
  apply bind_ok_inv in H as (lv & wl & [= <- <-] & H).
  cbn [items] in H.
  apply bind_ok_inv in H as ([] & wm & Hcoadd & H).
  assert (wm = {| heap := heap_calls (coadd_calls args qcfit
                              (valid_spectra (heap w7) (items l2)))
                            (heap w7);
                  nlists := S (nlists w7);
                  log := log w7
                    ++ (if coadd_arms args
                        then [EvLog "info" "Coadding arms."] else [])
                    ++ map call_event (coadd_calls args qcfit
                         (valid_spectra (heap w7) (items l2))) |}) as ->.
  { unfold coadd_calls. destruct (coadd_arms args).
    - apply bind_ok_inv in Hcoadd as ([] & wn & [= <-] & Hcoadd).
      rewrite for_each_method in Hcoadd. injection Hcoadd as <-.
      unfold apply_calls; cbn. by rewrite <- !app_assoc.
    - injection Hcoadd as <-. cbn. by rewrite app_nil_r. }
  clear Hcoadd.
  apply bind_ok_inv in H as ([] & wn & Hclean & H).
  rewrite for_each_method in Hclean. injection Hclean as <-.
  apply bind_ok_inv in H as ([] & wo & [= <-] & H).
  apply bind_ok_inv in H as ([] & wp & [= <-] & H).
  apply bind_ok_inv in H as (h' & wq & [= <- <-] & H).
  apply bind_ok_inv in H as ([] & wr & [= <-] & H).
  apply check_exn_ok_inv in H as [Hsave ->].
  eexists (mkRun args q maskers l1 l2 f0 qcfit _ w2 w3 w4 w5 _ w7).
  split; [|split; [exact Hq|split; [exact Hblind|exact Hmk]]].
  unfold complete_run, run_valid; cbn [run_args run_queue run_maskers
    run_read run_kept run_fitter0 run_qcfit w_setup w_maskers w_read
    w_masked w_kept w_smooth w_fit].
  refine (conj Hargs (conj _ (conj _ (conj Hmasks (conj Hread
           (conj Happly (conj Hshort (conj _ (conj _ (conj Hf0
           (conj Hfit _))))))))))); cbn [heap log nlists] in *.
  - unfold setup_events. by rewrite <- !app_assoc.
  - done.
  - done.
  - unfold prefit_events. by rewrite <- !app_assoc.
  - cbv zeta. cbn [heap log nlists] in *. split; [|split].
    + by rewrite heap_calls_app.
    + unfold output_events. by rewrite <- !app_assoc.
    + exact Hsave.
Qed.

Lemma mpi_run_all_ok_inv rank size w w' :
  mpi_run_all rank size w = (Ok tt, w') ->
  exists R, complete_run rank size w w' R.
Proof.
  intros H. apply mpi_run_all_ok_inv_catalog in H as (R & HR & _).
  by exists R.
Qed.

End Pipeline.

(** ** The order of the stages *)

Section Stages.

Context `{Q : Qsonic}.

Lemma staged_nil lo hi : staged lo hi [].
Proof. split; constructor. Qed.

Lemma staged_app a b c es1 es2 :
  a <= b -> b <= c ->
  staged a b es1 -> staged b c es2 -> staged a c (es1 ++ es2).
Proof.
  unfold staged, stages. intros Hab Hbc [Hs1 Hb1] [Hs2 Hb2].
  rewrite omap_app. split.
  - induction Hs1 as [|n ns Hs IH Hn]; [done|].
    apply Forall_cons in Hb1 as [Hn1 Hb1]. simpl. constructor.
    + by apply IH.
    + apply Forall_app. split; [done|].
      eapply Forall_impl; [exact Hb2|]. simpl. lia.
  - apply Forall_app. split.
    + eapply Forall_impl; [exact Hb1|]. simpl. lia.
    + eapply Forall_impl; [exact Hb2|]. simpl. lia.
Qed.

Lemma staged_weaken a b a' b' es :
  a' <= a -> b <= b' -> staged a b es -> staged a' b' es.
Proof.
  intros Ha Hb [Hs Hf]. split; [done|].
  eapply Forall_impl; [exact Hf|]. simpl. lia.
Qed.

Lemma staged_same n lo hi es :
  lo <= n <= hi ->
  Forall (fun e => stage_of e = None \/ stage_of e = Some n) es ->
  staged lo hi es.
Proof.
  intros Hn Hes. unfold staged, stages.
  assert (Forall (fun k => k = n) (omap stage_of es)) as Hall.
  { induction Hes as [|e es [He|He] _ IH]; simpl; rewrite ?He;
      [constructor|done|by constructor]. }
  split.
  - induction Hall as [|k ks -> Hks IH]; constructor; [done|].
    eapply Forall_impl; [exact Hks|]. simpl. lia.
  - eapply Forall_impl; [exact Hall|]. simpl. lia.
Qed.

Lemma emits_silent {A} lo hi (m : M A) :
  (forall w res w', m w = (res, w') -> log w' = log w) ->
  emits lo hi m.
Proof.
  intros Hm w res w' Hrun. exists []. rewrite app_nil_r.
  split; [by eapply Hm|apply staged_nil].
Qed.

Lemma emits_ret {A} lo hi (a : A) : emits lo hi (ret a).
Proof. apply emits_silent. by intros w res w' [= _ <-]. Qed.

Lemma emits_lift_exn {A} lo hi (x : Py.Exn + A) : emits lo hi (lift_exn x).
Proof. apply emits_silent. destruct x; by intros w res w' [= _ <-]. Qed.

Lemma emits_check_exn lo hi x : emits lo hi (check_exn x).
Proof. apply emits_silent. destruct x; by intros w res w' [= _ <-]. Qed.

Lemma emits_get_heap lo hi : emits lo hi get_heap.
Proof. apply emits_silent. by intros w res w' [= _ <-]. Qed.

Lemma emits_new_list lo hi l : emits lo hi (new_list l).
Proof. apply emits_silent. by intros w res w' [= _ <-]. Qed.

Lemma emits_log lo hi msg lvl : emits lo hi (logging_mpi msg lvl).
Proof.
  intros w res w' [= _ <-]. eexists [_]. split; [done|].
  split; constructor.
Qed.

Lemma emits_call lo hi c :
  lo <= call_stage c <= hi -> emits lo hi (emit (EvCall c)).
Proof.
  intros Hc w res w' [= _ <-]. eexists [_]. split; [done|].
  apply (staged_same (call_stage c)); [done|].
  constructor; [by right|constructor].
Qed.

Lemma emits_bind {A B} a b c (m : M A) (k : A -> M B) :
  a <= b -> b <= c ->
  emits a b m -> (forall x, emits b c (k x)) -> emits a c (bind m k).
Proof.
  intros Hab Hbc Hm Hk w res w' Hrun.
  apply bind_inv in Hrun as [(e & Hrun & ->)|(x & w1 & Hrun & Hrest)].
  - apply Hm in Hrun as (es & Hlog & Hes). exists es. split; [done|].
    by apply (staged_weaken a b).
  - apply Hm in Hrun as (es1 & Hlog1 & Hes1).
    apply Hk in Hrest as (es2 & Hlog2 & Hes2).
    exists (es1 ++ es2). split.
    + by rewrite Hlog2, Hlog1, app_assoc.
    + by apply (staged_app a b c).
Qed.

Lemma emits_raise {A} lo hi e : emits lo hi (@raise A e).
Proof. apply emits_silent. by intros w res w' [= _ <-]. Qed.

Lemma emits_call_method lo hi m r :
  lo <= method_stage m <= hi -> emits lo hi (call_method m r).
Proof.
  intros Hm w res w' Hrun. rewrite call_method_eq in Hrun.
  injection Hrun as _ <-. eexists. split; [reflexivity|].
  apply (staged_same (method_stage m)); [done|].
  constructor; [by right|constructor].
Qed.

Lemma emits_for_each {A} n (l : list A) body :
  (forall x, emits n n (body x)) -> emits n n (for_each l body).
Proof.
  intros Hbody. induction l as [|x l IH]; simpl.
  - apply emits_ret.
  - apply (emits_bind n n n); [done|done|apply Hbody|by intros _].
Qed.

Lemma emits_weaken {A} a b a' b' (m : M A) :
  a' <= a -> b <= b' -> emits a b m -> emits a' b' m.
Proof.
  intros Ha Hb Hm w res w' Hrun.
  apply Hm in Hrun as (es & Hlog & Hes). exists es. split; [done|].
  by apply (staged_weaken a b).
Qed.

Lemma emits_for_each_method lo hi m l :
  lo <= method_stage m <= hi -> emits lo hi (for_each l (call_method m)).
Proof.
  intros Hm w res w' Hrun. rewrite for_each_method in Hrun.
  injection Hrun as _ <-. eexists. split; [reflexivity|].
  apply (staged_same (method_stage m)); [done|].
  induction l; constructor; [by right|done].
Qed.

End Stages.

(** One step of a computation all of whose events belong to one stage. *)
Ltac emits_leaf :=
  repeat first
    [ apply emits_ret | apply emits_raise | apply emits_lift_exn
    | apply emits_check_exn | apply emits_get_heap | apply emits_new_list
    | apply emits_log
    | apply emits_call; cbn; lia
    | apply emits_call_method; cbn; lia
    | apply emits_for_each_method; cbn; lia
    | apply emits_for_each; intros ?
    | match goal with
      | |- emits ?a ?c (bind _ _) =>
          apply (emits_bind a a c); [lia|lia| |intros ?]
      | |- emits _ _ (if ?b then _ else _) => destruct b
      | |- emits _ _ (match ?l with [] => _ | _ :: _ => _ end) =>
          destruct l
      end ].

(** One step of a computation that moves on to stage [b]. *)
Ltac emits_step b :=
  match goal with
  | |- emits ?a ?c (bind _ _) =>
      apply (emits_bind a b c); [lia|lia| |intros ?]
  end.

Section StageOrder.

Context `{Q : Qsonic}.

Lemma emits_read_masks q args rank : emits 2 2 (mpi_read_masks q args rank).
Proof.
  unfold mpi_read_masks, first_catalog, concatenate_targetids.
  emits_leaf.
Qed.

Lemma read_trace_staged args es : read_trace args es -> staged 3 3 es.
Proof.
  intros Htr. apply (staged_same 3); [lia|].
  induction Htr as [|c es Hc _ IH|lvl msg es _ IH|r es _ IH].
  - constructor.
  - constructor; [right; cbn; by rewrite Hc|done].
  - constructor; [by left|done].
  - apply Forall_app. split; [|done]. unfold forest_calls.
    destruct (negb _); repeat constructor; by right.
Qed.

Lemma emits_read_spectra q args rank :
  emits 3 3 (mpi_read_spectra_local_queue q args rank).
Proof.
  intros w res w' Hrun. apply mpi_read_spectra_run in Hrun
    as (es & k & Hlog & Htr & _).
  exists es. split; [done|]. by apply (read_trace_staged args).
Qed.

Lemma emits_apply_masks maskers l rank :
  emits 4 4 (apply_masks maskers l rank).
Proof. unfold apply_masks. emits_leaf. Qed.

Lemma emits_remove_short l lya1 lya2 skip_ratio rank :
  emits 5 5 (remove_short_spectra l lya1 lya2 skip_ratio rank).
Proof. unfold remove_short_spectra. emits_leaf. Qed.

Lemma emits_fitter_iterate qcfit l : emits 7 7 (fitter_iterate qcfit l).
Proof.
  unfold fitter_iterate. emits_leaf.
  apply emits_silent. by intros w res w' [= _ <-].
Qed.

(** On every run, whatever its outcome, the calls of [mpi_run_all] come
    in the order of the stages. *)
Lemma mpi_run_all_staged rank size : emits 0 10 (mpi_run_all rank size).
Proof.
  unfold mpi_run_all.
  emits_step 0; [emits_leaf|].
  emits_step 0; [emits_leaf|].
  emits_step 0; [emits_leaf|].
  emits_step 1; [emits_leaf|].
  emits_step 1; [emits_leaf|].
  emits_step 1; [emits_leaf|].
  emits_step 1; [emits_leaf|].
  emits_step 2; [apply (emits_weaken 2 2); [lia|lia|apply emits_read_masks]|].
  emits_step 3;
    [apply (emits_weaken 3 3); [lia|lia|apply emits_read_spectra]|].
  emits_step 4;
    [apply (emits_weaken 4 4); [lia|lia|apply emits_apply_masks]|].
  emits_step 5;
    [apply (emits_weaken 5 5); [lia|lia|apply emits_remove_short]|].
  emits_step 6; [emits_leaf|].
  emits_step 7; [emits_leaf|].
  emits_step 7; [emits_leaf|].
  emits_step 7; [emits_leaf|].
  emits_step 7; [emits_leaf|].
  emits_step 7; [apply emits_fitter_iterate|].
  emits_step 7; [emits_leaf|].
  emits_step 7; [emits_leaf|].
  emits_step 8; [emits_leaf|].
  emits_step 9; [emits_leaf|].
  emits_step 9; [emits_leaf|].
  emits_step 9; [emits_leaf|].
  emits_step 9; [emits_leaf|].
  emits_step 10; [emits_leaf|].
  emits_leaf.
Qed.

End StageOrder.

Section PipelineOrder.

Context `{Q : Qsonic}.

Lemma staged_in lo hi es e n :
  staged lo hi es -> e ∈ es -> stage_of e = Some n -> lo <= n <= hi.
Proof.
  intros [_ Hall] He Hn.
  eapply (proj1 (Forall_forall _ _) Hall).
  apply list_elem_of_omap. eauto.
Qed.

Lemma staged_setup args q rank size :
  staged 0 1 (setup_events args q rank size).
Proof.
  unfold setup_events, staged, stages.
  destruct (Nat.eqb rank 0 && Py.truthy_str (outdir args)); cbn;
    split; repeat constructor; lia.
Qed.

Lemma staged_prefit l : staged 6 7 (prefit_events l).
Proof.
  unfold prefit_events. apply (staged_app 6 6 7); [lia|lia| |].
  - apply (staged_same 6); [lia|].
    induction l; constructor; [by right|done].
  - apply (staged_same 7); [lia|].
    repeat constructor; (by left) || (by right).
Qed.

(** The log of a run that returns, stage by stage. *)
Lemma complete_run_log rank size w w' R :
  complete_run rank size w w' R ->
  exists es_pre es_fit,
    staged 0 5 es_pre /\
    staged 7 7 es_fit /\
    log (w_fit R) =
      log w ++ es_pre ++ prefit_events (items (run_kept R)) ++ es_fit /\
    log w' =
      log w ++ es_pre ++ prefit_events (items (run_kept R)) ++ es_fit
        ++ output_events (run_args R) (run_qcfit R) (run_valid R) rank.
Proof.
  intros (_ & Hsetup & _ & Hmasks & Hread & Happly & Hshort & _ & Hsm
          & _ & Hfit & _ & Hout & _).
  apply emits_read_masks in Hmasks as (es_m & Hm & Hsm2).
  apply emits_read_spectra in Hread as (es_r & Hr & Hsr).
  apply emits_apply_masks in Happly as (es_a & Ha & Hsa).
  apply emits_remove_short in Hshort as (es_s & Hs & Hss).
  apply emits_fitter_iterate in Hfit as (es_f & Hf & Hsf).
  exists (setup_events (run_args R) (run_queue R) rank size
            ++ es_m ++ es_r ++ es_a ++ es_s), es_f.
  split; [|split; [done|]].
  - apply (staged_app 0 1 5); [lia|lia|apply staged_setup|].
    apply (staged_app 1 2 5); [lia|lia|apply (staged_weaken 2 2); [lia|lia|done]|].
    apply (staged_app 2 3 5); [lia|lia|apply (staged_weaken 3 3); [lia|lia|done]|].
    apply (staged_app 3 4 5); [lia|lia|apply (staged_weaken 4 4); [lia|lia|done]|].
    apply (staged_weaken 5 5); [lia|lia|done].
  - assert (log (w_fit R) =
              log w ++ (setup_events (run_args R) (run_queue R) rank size
                          ++ es_m ++ es_r ++ es_a ++ es_s)
                ++ prefit_events (items (run_kept R)) ++ es_f) as Hlog.
    { rewrite Hf, Hsm, Hs, Ha, Hr, Hm, Hsetup.
      by rewrite <- !app_assoc. }
    split; [done|]. rewrite Hout, Hlog. by rewrite <- !app_assoc.
Qed.

Lemma in_prefit_events l e :
  e ∈ prefit_events l ->
  (exists r, r ∈ l /\ e = EvMethod r set_smooth_ivar) \/
  stage_of e = None \/ stage_of e = Some 7.
Proof.
  unfold prefit_events, smooth_calls. rewrite elem_of_app.
  intros [He|He].
  - left. apply list_elem_of_fmap in He as (c & -> & Hc).
    apply list_elem_of_fmap in Hc as (r & -> & Hr). by exists r.
  - right. in_concrete He; subst; cbn; auto.
Qed.

Lemma in_output_events args qcfit l rank e :
  e ∈ output_events args qcfit l rank ->
  (exists r, r ∈ l /\
     e = EvMethod r (coadd_arms_forest (varlss_interp qcfit))) \/
  (exists r, r ∈ l /\
     e = EvMethod r (drop_short_arms
                       (Some (forest_w1 args, forest_w2 args, skip args))))
  \/ stage_of e = None \/
  e = EvCall (c_save_deltas l (outdir args) (varlss_interp qcfit)
                (save_by_hpx args) rank).
Proof.
  unfold output_events, coadd_calls, clean_calls.
  rewrite !elem_of_app. intros [He|[He|[He|He]]].
  - destruct (coadd_arms args); in_concrete He; subst; auto.
  - destruct (coadd_arms args); [|by apply elem_of_nil in He].
    left. apply list_elem_of_fmap in He as (c & -> & Hc).
    apply list_elem_of_fmap in Hc as (r & -> & Hr). by exists r.
  - right; left. apply list_elem_of_fmap in He as (c & -> & Hc).
    apply list_elem_of_fmap in Hc as (r & -> & Hr). by exists r.
  - in_concrete He; subst; auto.
Qed.

(** *** The flow of a run that returns *)

Lemma mpi_read_masks_ok q args rank w maskers w' :
  mpi_read_masks q args rank w = (Ok maskers, w') ->
  maskers = built_maskers args q /\
  masks_pass args q /\
  heap w' = heap w /\
  log w' = log w ++ masks_events args q.
Proof.
  unfold mpi_read_masks, built_maskers, masks_pass, masks_events.
  destruct (Py.truthy_str (sky_mask args)) eqn:Hsky,
    (SkyMask_init (sky_mask args)) as [e1|k] eqn:Ek,
    (bal_mask args) eqn:Hbal, q as [|cat q];
    run_simpl; rewrite ?Ek; cbn; try done.
  all: try match goal with
       | |- context [BALMask_check_catalog ?c] =>
           destruct (BALMask_check_catalog c) as [e2|] eqn:Ec
       end; cbn; try done.
  all: destruct (Py.truthy_str (dla_mask args)) eqn:Hdla; cbn; try done.
  all: try match goal with
       | |- context [DLAMask_init ?a ?b ?c] =>
           destruct (DLAMask_init a b c) as [e3|d] eqn:Ed
       end; cbn; try done.
  all: intros [= <- <-]; cbn [log heap]; rewrite <- ?app_assoc, ?app_nil_r.
  all: repeat split; try done; try (intros _; eauto; fail).
  all: try (intros _; split; [done|eauto]).
  all: eauto.
Qed.

Lemma read_queue_ok args q : forall acc w its w',
  read_queue args acc q w = (Ok its, w') ->
  heap w' = read_heap args (heap w) q /\
  log w' = log w ++ read_events args (length (heap w)) q /\
  reads_pass args q.
Proof.
  induction q as [|cat q IH]; intros acc w its w' Hrun.
  - injection Hrun as _ <-. cbn. rewrite app_nil_r. repeat split. constructor.
  - cbn [read_queue] in Hrun.
    apply bind_ok_inv in Hrun as (acc' & w1 & Hone & Hrest).
    rewrite read_one_healpix_run in Hone.
    cbn [read_heap read_events]. unfold healpix_spectra.
    destruct (read_spectra_onehealpix _ _ _ _ _) as [e|specs] eqn:Hspecs;
      [done|].
    injection Hone as _ <-.
    apply IH in Hrest as (Hheap & Hlog & Hpass).
    rewrite after_healpix_length in Hlog.
    split; [|split].
    + rewrite Hheap. reflexivity.
    + rewrite Hlog. unfold after_healpix; cbn. by rewrite <- !app_assoc.
    + constructor; [|done]. by exists specs.
Qed.

Lemma mpi_read_spectra_ok q args rank w l w' :
  mpi_read_spectra_local_queue q args rank w = (Ok l, w') ->
  heap w' = read_heap args (heap w) q /\
  log w' = log w ++ reader_events args (length (heap w)) q (length (items l)) /\
  items l = List.filter (rsnr_above (heap w') (min_rsnr args))
              (seq (length (heap w)) (length (heap w') - length (heap w))) /\
  reads_pass args q.
Proof.
  intros Hrun.
  pose proof (mpi_read_spectra_run q args rank w (Ok l) w' Hrun)
    as (es & k & _ & _ & Hlen & _ & _ & _ & Hl).
  destruct (Hl l eq_refl) as [_ Hitems].
  revert Hrun. unfold mpi_read_spectra_local_queue. run_simpl.
  destruct (read_queue _ _ _ _) as [[its|e] w1] eqn:Hq; [|done].
  apply read_queue_ok in Hq as (Hheap & Hlog & Hpass).
  cbn [heap nlists log] in *. intros [= <- <-].
  cbn [heap nlists log items] in *.
  split; [done|]. split; [|split; [|done]].
  - rewrite Hlog. unfold reader_events. by rewrite <- !app_assoc.
  - rewrite Hitems. do 2 f_equal. lia.
Qed.

Lemma apply_masks_ok maskers l rank w w' :
  apply_masks maskers l rank w = (Ok tt, w') ->
  heap w' = masked_heap maskers (items l) (heap w) /\
  log w' = log w ++ apply_events maskers (items l).
Proof.
  destruct (decide (maskers = [])) as [->|Hne].
  - intros [= <-]. cbn. by rewrite app_nil_r.
  - rewrite apply_masks_run by done. intros [= <-]. cbn [heap log].
    unfold masked_heap, apply_events. by destruct maskers.
Qed.

Lemma remove_short_spectra_ok l lya1 lya2 skip_ratio rank w l' w' :
  remove_short_spectra l lya1 lya2 skip_ratio rank w = (Ok l', w') ->
  items l' = cut_items (heap w) lya1 lya2 skip_ratio (items l) /\
  heap w' = heap w /\
  log w' = log w ++ cut_events skip_ratio.
Proof.
  unfold remove_short_spectra, cut_items, cut_events.
  destruct (Py.truthy_float skip_ratio); cbn; run_simpl.
  - by intros [= <- <-].
  - intros [= <- <-]. by rewrite app_nil_r.
Qed.

Lemma fitter_iterate_ok qcfit l w qcfit' w' :
  fitter_iterate qcfit l w = (Ok qcfit', w') ->
  let res := iterate qcfit (deref (heap w) (items l)) in
  it_exn res = None /\
  qcfit' = it_fitter res /\
  heap w' = apply_updates (it_update res) 0 (items l) (heap w) /\
  log w' = log w ++ [EvCall (c_iterate (items l))].
Proof.
  unfold fitter_iterate. run_simpl.
  destruct (it_exn _) eqn:Hexn; [done|]. by intros [= <- <-].
Qed.

(** The stages of a run that returns are those of its flow. *)
Lemma complete_run_flow rank size w w' R :
  complete_run rank size w w' R ->
  let args := run_args R in
  let F := flow args (run_queue R) (run_fitter0 R) (heap w) in
  masks_pass args (run_queue R) /\
  reads_pass args (run_queue R) /\
  it_exn (fl_iter F) = None /\
  run_maskers R = fl_maskers F /\
  heap (w_read R) = fl_heap_read F /\
  items (run_read R) = fl_read F /\
  heap (w_masked R) = fl_heap_masked F /\
  items (run_kept R) = fl_kept F /\
  heap (w_smooth R) = fl_heap_smooth F /\
  heap (w_fit R) = fl_heap_fit F /\
  run_qcfit R = it_fitter (fl_iter F) /\
  run_valid R = fl_valid F /\
  heap w' = fl_heap_end F /\
  log w' = log w ++ flow_events args (run_queue R) rank size
                      (length (heap w)) F.
Proof.
  intros (_ & Hlog0 & Hheap0 & Hmasks & Hread & Happly & Hshort & Hsm
          & Hlogsm & _ & Hfit & Hend & Hlogend & _) args F.
  apply mpi_read_masks_ok in Hmasks as (Hm & Hmp & Hh1 & Hl1).
  apply mpi_read_spectra_ok in Hread as (Hh2 & Hl2 & Hi2 & Hrp).
  apply apply_masks_ok in Happly as (Hh3 & Hl3).
  apply remove_short_spectra_ok in Hshort as (Hi4 & Hh4 & Hl4).
  apply fitter_iterate_ok in Hfit as (Hexn & Hq & Hh5 & Hl5).
  rewrite Hh1, Hheap0 in Hh2, Hi2, Hl2.
  rewrite Hh2 in Hi2.
  assert (items (run_read R) = fl_read F) as E1 by exact Hi2.
  assert (heap (w_masked R) = fl_heap_masked F) as E2.
  { rewrite Hh3, Hh2, E1, Hm. reflexivity. }
  assert (items (run_kept R) = fl_kept F) as E3.
  { rewrite Hi4, E2, E1. reflexivity. }
  assert (heap (w_smooth R) = fl_heap_smooth F) as E4.
  { rewrite Hsm, Hh4, E2, E3. reflexivity. }
  rewrite E4, E3 in Hexn, Hq, Hh5.
  assert (heap (w_fit R) = fl_heap_fit F) as E5 by exact Hh5.
  assert (run_valid R = fl_valid F) as E6.
  { unfold run_valid. rewrite E5, E3. reflexivity. }
  repeat (split; [done|]). split.
  - rewrite Hend, E6, E5, Hq. reflexivity.
  - rewrite Hlogend, Hl5, Hlogsm, Hl4, Hl3, Hl2, Hl1, Hlog0.
    rewrite E6, E3, E1, Hq, Hm. unfold flow_events.
    fold args. by rewrite <- !app_assoc.
Qed.


(** C1.  On every run of [mpi_run_all], failed or not, the calls come in
    the order of the stages: options and catalog partition, construction
    of the maskers, reading and forest region, mask application, smoothed
    inverse variance, continuum fit, coaddition, final cleaning, saving.
    A run that returns has performed every stage on what the previous
    one left: from the options parsed, the catalog partition read and
    the fitter constructed, its log is, event for event, the catalog
    partition, the construction of the maskers, the reading with the
    forest region of every spectrum read, the masks applied to the
    spectra the reader kept, the length cut, the smoothed inverse
    variance of every spectrum still there, one call of [iterate] on
    them, and then, on the spectra that are valid in the store the fit
    left, the coaddition if asked for, the final cleaning and, last,
    the saving of the deltas; and the store at the end is the one these
    calls produce. *)
Theorem pipeline_stage_order rank size w res w' :
  mpi_run_all rank size w = (res, w') ->
  exists es,
    log w' = log w ++ es /\
    StronglySorted le (stages es) /\
    (res = Ok tt ->
     exists args q f0,
       mpi_parse rank = inr args /\
       (Nat.eqb rank 0 && Py.truthy_str (outdir args) = true ->
        os_makedirs (outdir args) = None) /\
       mpi_read_local_qso_catalog (catalog args) rank size
         (mock_analysis args) (keep_surveys args) = inr q /\
       set_blinding q args = None /\
       masks_pass args q /\
       reads_pass args q /\
       PiccaContinuumFitter_init args = inr f0 /\
       let F := flow args q f0 (heap w) in
       it_exn (fl_iter F) = None /\
       save_deltas (deref (fl_heap_end F) (fl_valid F)) (outdir args)
         (varlss_interp (it_fitter (fl_iter F))) (save_by_hpx args) rank
         = None /\
       heap w' = fl_heap_end F /\
       es = flow_events args q rank size (length (heap w)) F /\
       (forall r, EvMethod r set_smooth_ivar ∈ es <-> r ∈ fl_kept F) /\
       (forall r v, EvMethod r (coadd_arms_forest v) ∈ es ->
                    r ∈ fl_valid F) /\
       (forall l d v b k, EvCall (c_save_deltas l d v b k) ∈ es ->
                          l = fl_valid F)).
Proof.
  intros Hrun.
  destruct (mpi_run_all_staged rank size w res w' Hrun)
    as (es & Hlog & Hsorted & _).
  exists es. split; [done|]. split; [done|].
  intros ->.
  apply mpi_run_all_ok_inv_catalog in Hrun as (R & HR & Hq & Hblind & Hmk).
  exists (run_args R), (run_queue R), (run_fitter0 R).
  pose proof (complete_run_flow rank size w w' R HR)
    as (Hmp & Hrp & Hexn & _ & _ & _ & _ & Ekept & _ & _ & Eq & Evalid
        & Hend & Hflow).
  cbv zeta in *.
  set (F := flow (run_args R) (run_queue R) (run_fitter0 R) (heap w)) in *.
  destruct (complete_run_log rank size w w' R HR)
    as (es_pre & es_fit & Hpre & Hfit & _ & Hlog').
  pose proof HR as (Hargs & _ & _ & _ & _ & _ & _ & _ & _ & Hf0 & _ & _ & _
                    & Hsave).
  rewrite Hend, Evalid, Eq in Hsave.
  repeat (split; [done|]).
  split; [rewrite Hlog in Hflow; by apply app_inv_head in Hflow|].
  rewrite Hlog in Hlog'. apply app_inv_head in Hlog'.
  rewrite Ekept, Evalid in Hlog'. clear Hflow Hlog. subst es.
  set (out := output_events (run_args R) (run_qcfit R) (fl_valid F) rank).
  set (pre := prefit_events (fl_kept F)).
  assert (forall e n, e ∈ es_pre ++ pre ++ es_fit ++ out ->
            stage_of e = Some n -> n = 6 \/ 8 <= n -> e ∈ pre \/ e ∈ out)
    as Hwhere.
  { intros e n He Hn Hrange. rewrite !elem_of_app in He.
    destruct He as [He|[He|[He|He]]]; auto.
    - pose proof (staged_in 0 5 es_pre e n Hpre He Hn). lia.
    - pose proof (staged_in 7 7 es_fit e n Hfit He Hn). lia. }
  split; [|split].
  - intros r. split.
    + intros He. destruct (Hwhere _ 6 He eq_refl) as [Hin|Hin]; [auto| |].
      * apply in_prefit_events in Hin
          as [(r' & Hr' & [= ->])|[[=]|[=]]]. done.
      * apply in_output_events in Hin
          as [(r' & _ & [=])|[(r' & _ & [=])|[[=]|[=]]]].
    + intros Hr. rewrite !elem_of_app. right; left.
      unfold pre, prefit_events, smooth_calls. apply elem_of_app. left.
      apply list_elem_of_fmap. exists (r, set_smooth_ivar). split; [done|].
      apply list_elem_of_fmap. by exists r.
  - intros r v He. destruct (Hwhere _ 8 He eq_refl) as [Hin|Hin]; [lia| |].
    + apply in_prefit_events in Hin as [(r' & _ & [=])|[[=]|[=]]].
    + apply in_output_events in Hin
        as [(r' & Hr' & [= -> _])|[(r' & _ & [=])|[[=]|[=]]]]. done.
  - intros l d v b k He.
    destruct (Hwhere _ 10 He eq_refl) as [Hin|Hin]; [lia| |].
    + apply in_prefit_events in Hin as [(r' & _ & [=])|[[=]|[=]]].
    + apply in_output_events in Hin
        as [(r' & _ & [=])|[(r' & _ & [=])|[[=]|[= -> _ _ _ _]]]]. done.
Qed.

End PipelineOrder.

(** ** Short arms *)

Section ShortArms.

Context `{Q : Qsonic}.

Lemma drop_short_arms_long minpix s name a :
  arms (do_drop_short_arms minpix s) !! name = Some a ->
  minpix <= count_valid a.
Proof.
  cbn. intros H. apply map_lookup_filter_Some in H as [_ H]. exact H.
Qed.

Lemma drop_short_arms_never_adds minpix name :
  never_adds name (do_drop_short_arms minpix).
Proof.
  intros s Hs. cbn. apply map_lookup_filter_None. by left.
Qed.

(** In [apply_masks] the last call on every spectrum of the list is
    [drop_short_arms]. *)
Lemma mask_calls_end maskers l r :
  r ∈ l ->
  exists ms, calls_on r (flat_map (mask_calls maskers) l)
             = ms ++ [drop_short_arms None].
Proof.
  induction l as [|x l IH]; intros Hr; [by apply elem_of_nil in Hr|].
  simpl. rewrite calls_on_app.
  destruct (decide (r ∈ l)) as [Hin|Hout].
  - destruct (IH Hin) as [ms ->]. eexists. by rewrite app_assoc.
  - apply elem_of_cons in Hr as [->|?]; [|done].
    rewrite (calls_on_other x (mask_calls maskers) l)
      by eauto using mask_calls_target.
    rewrite app_nil_r, calls_on_self by apply mask_calls_target.
    unfold mask_calls. rewrite map_app. by eexists.
Qed.

Lemma heap_calls_absent name cs h r :
  (forall c, c ∈ cs -> never_adds name (method_sem c.2)) ->
  absent name r h -> absent name r (heap_calls cs h).
Proof.
  revert h. induction cs as [|[r' m] cs IH]; intros h Hcs Habs; [done|].
  unfold heap_calls in *; simpl. apply IH.
  - intros c Hc. apply Hcs. by right.
  - destruct Habs as (s & Hs & Hname).
    destruct (decide (r' = r)) as [->|Hne].
    + exists (method_sem m s). rewrite list_lookup_alter_eq, Hs.
      split; [done|]. apply (Hcs (r, m)); [left|done].
    + exists s. by rewrite list_lookup_alter_ne.
Qed.

Lemma apply_updates_absent name upd l : forall i h r,
  (forall i, never_adds name (upd i)) ->
  absent name r h -> absent name r (apply_updates upd i l h).
Proof.
  induction l as [|r' l IH]; intros i h r Hupd Habs; [done|].
  simpl. apply IH; [done|].
  destruct Habs as (s & Hs & Hname).
  destruct (decide (r' = r)) as [->|Hne].
  - exists (upd i s). rewrite list_lookup_alter_eq, Hs.
    split; [done|]. by apply Hupd.
  - exists s. by rewrite list_lookup_alter_ne.
Qed.

Lemma remove_short_spectra_heap l lya1 lya2 skip_ratio rank w l' w' :
  remove_short_spectra l lya1 lya2 skip_ratio rank w = (Ok l', w') ->
  heap w' = heap w.
Proof.
  unfold remove_short_spectra.
  destruct (negb _); run_simpl; by intros [= _ <-].
Qed.

Lemma fitter_iterate_heap qcfit l w qcfit' w' :
  fitter_iterate qcfit l w = (Ok qcfit', w') ->
  heap w' =
    apply_updates
      (it_update (iterate qcfit (deref (heap w) (items l)))) 0
      (items l) (heap w).
Proof.
  unfold fitter_iterate. run_simpl.
  destruct (it_exn _); by intros [= _ <-].
Qed.

(** What the mask stage of a run does to the arms: nothing without
    maskers; with maskers no spectrum of the working set keeps an arm of
    fewer than the minimum number of valid pixels. *)
Lemma mask_stage_arms rank size w w' R :
  complete_run rank size w w' R ->
  (run_maskers R = [] -> w_masked R = w_read R) /\
  (run_maskers R <> [] ->
   forall r s n a,
     r ∈ items (run_read R) ->
     heap (w_masked R) !! r = Some s ->
     arms s !! n = Some a ->
     min_valid_pixels None <= count_valid a).
Proof.
  intros (_ & _ & _ & _ & _ & Happly & _). split.
  - intros Hnil. rewrite Hnil in Happly. by injection Happly.
  - intros Hne r s n a Hr Hs Ha.
    rewrite apply_masks_run in Happly by done.
    injection Happly as Hw. rewrite <- Hw in Hs. cbn [heap] in Hs.
    rewrite heap_calls_lookup in Hs.
    destruct (mask_calls_end (run_maskers R) _ r Hr) as [ms Hms].
    rewrite Hms in Hs.
    destruct (heap (w_read R) !! r) as [s0|]; [|done].
    injection Hs as <-. unfold run_methods in Ha.
    rewrite foldl_app in Ha. by apply drop_short_arms_long in Ha.
Qed.

(** An arm that a spectrum lacks after the mask stage is lacking after
    the later stages whose methods do not add it. *)
Lemma absent_after_masks rank size w w' R name r :
  complete_run rank size w w' R ->
  never_adds name do_set_smooth_ivar ->
  (forall qcfit specs i,
     never_adds name (it_update (iterate qcfit specs) i)) ->
  absent name r (heap (w_masked R)) ->
  Forall (absent name r)
    [heap (w_kept R); heap (w_smooth R); heap (w_fit R)] /\
  ((forall varlss, never_adds name (do_coadd_arms_forest varlss)) ->
   Forall (absent name r)
     [heap_calls (coadd_calls (run_args R) (run_qcfit R) (run_valid R))
        (heap (w_fit R));
      heap w']).
Proof.
  intros HR Hsmooth Hiter Habs.
  destruct HR as (_ & _ & _ & _ & _ & Happly & Hshort & Hsm & _
                  & _ & Hfit & Hout & _ & _).
  apply remove_short_spectra_heap in Hshort.
  apply fitter_iterate_heap in Hfit.
  assert (absent name r (heap (w_kept R))) as H1 by by rewrite Hshort.
  assert (absent name r (heap (w_smooth R))) as H2.
  { rewrite Hsm. apply heap_calls_absent; [|done].
    intros c Hc. unfold smooth_calls in Hc.
    apply list_elem_of_fmap in Hc as (r' & -> & _). exact Hsmooth. }
  assert (absent name r (heap (w_fit R))) as H3.
  { rewrite Hfit. apply apply_updates_absent; [|done].
    intros i. apply Hiter. }
  split; [by repeat constructor|].
  intros Hcoadd.
  assert (forall l, absent name r
            (heap_calls (coadd_calls (run_args R) (run_qcfit R) l)
               (heap (w_fit R)))) as H4.
  { intros l. apply heap_calls_absent; [|done].
    intros c Hc. unfold coadd_calls in Hc.
    destruct (coadd_arms _); [|by apply elem_of_nil in Hc].
    apply list_elem_of_fmap in Hc as (r' & -> & _). apply Hcoadd. }
  constructor; [done|]. constructor; [|constructor].
  rewrite Hout, heap_calls_app. apply heap_calls_absent; [|done].
  intros c Hc. unfold clean_calls in Hc.
  apply list_elem_of_fmap in Hc as (r' & -> & _).
  apply drop_short_arms_never_adds.
Qed.

(** The methods modelled from the spec add no arm, the coadded arm
    apart. *)
Lemma spec_set_smooth_ivar_never_adds S name :
  never_adds name (spec_set_smooth_ivar S).
Proof. intros s Hs. cbn. by rewrite lookup_fmap, Hs. Qed.

Lemma spec_iterate_never_adds res i name :
  never_adds name (it_update (spec_iterate res) i).
Proof. intros s Hs. exact Hs. Qed.

Lemma spec_coadd_never_adds S varlss name :
  name <> coadd_name S ->
  never_adds name (spec_coadd_arms_forest S varlss).
Proof.
  intros Hne s _. cbn. destruct (Nat.eqb _ _).
  - apply lookup_empty.
  - by apply lookup_singleton_ne.
Qed.

(** Without maskers an arm without any valid pixel goes through
    [apply_masks], whatever the positive minimum. *)
Lemma dark_arm_survives :
  0 < min_valid_pixels None ->
  ~ (forall maskers l rank w w' r s name a,
       apply_masks maskers l rank w = (Ok tt, w') ->
       r ∈ items l ->
       heap w' !! r = Some s ->
       arms s !! name = Some a ->
       min_valid_pixels None <= count_valid a).
Proof.
  intros Hpos Hclaim.
  assert (0 ∈ items Demo.l_dark) as Hin by left.
  assert (arms Demo.dark !! "z" = Some Demo.dark_arm) as Hz
    by (vm_compute; reflexivity).
  pose proof (Hclaim [] Demo.l_dark 0 Demo.w_dark Demo.w_dark 0 Demo.dark
                "z" Demo.dark_arm eq_refl Hin eq_refl Hz) as Hlong.
  assert (count_valid Demo.dark_arm = 0) as Hzero
    by (vm_compute; reflexivity).
  lia.
Qed.

End ShortArms.

Section ShortArmsModel.

Context `{Q : Qsonic}.

(** C3, amended.  In a run that returns, when at least one masker is
    configured, every spectrum of the working set leaves the mask stage
    without any arm of fewer than the minimum number of valid pixels
    ([drop_short_arms] is its last call there); without maskers the mask
    stage leaves the store and the log as they were.  And, the methods
    called later being as the spec describes them, an arm that a
    spectrum lacks after the mask stage is lacking after the length cut,
    the smoothed inverse variance and the fit, and also after the
    coaddition and the final cleaning unless it is the arm the
    coaddition makes. *)
Theorem short_arms_dropped_for_good (S : ArmModel) rank size name :
  (forall w w',
     mpi_run_all rank size w = (Ok tt, w') ->
     exists R,
       complete_run rank size w w' R /\
       (run_maskers R = [] -> w_masked R = w_read R) /\
       (run_maskers R <> [] ->
        forall r s n a,
          r ∈ items (run_read R) ->
          heap (w_masked R) !! r = Some s ->
          arms s !! n = Some a ->
          min_valid_pixels None <= count_valid a)) /\
  (forall w w',
     @mpi_run_all (with_arm_model Q S) rank size w = (Ok tt, w') ->
     exists R,
       @complete_run (with_arm_model Q S) rank size w w' R /\
       forall r,
         absent name r (heap (w_masked R)) ->
         Forall (absent name r)
           [heap (w_kept R); heap (w_smooth R); heap (w_fit R)] /\
         (name <> coadd_name S ->
          Forall (absent name r)
            [@heap_calls (with_arm_model Q S)
               (coadd_calls (run_args R) (run_qcfit R)
                  (@run_valid R))
               (heap (w_fit R));
             heap w'])).
Proof.
  split.
  - intros w w' Hrun. apply mpi_run_all_ok_inv in Hrun as [R HR].
    exists R. split; [done|]. by apply (mask_stage_arms rank size w w').
  - intros w w' Hrun.
    apply (@mpi_run_all_ok_inv (with_arm_model Q S)) in Hrun as [R HR].
    exists R. split; [done|]. intros r Habs.
    destruct (@absent_after_masks (with_arm_model Q S) rank size w w' R
                name r HR) as [Hfit Hend]; [| |done|].
    + apply spec_set_smooth_ivar_never_adds.
    + intros qcfit specs i. apply spec_iterate_never_adds.
    + split; [done|]. intros Hne. apply Hend.
      intros varlss. by apply spec_coadd_never_adds.
Qed.

End ShortArmsModel.

(** ** The theorems at work on the small concrete world *)

Lemma pipeline_stage_order_witness :
  @mpi_run_all Demo.full 0 1 Demo.w0 = (Ok tt, Demo.full_end) /\
  exists es,
    log Demo.full_end = log Demo.w0 ++ es /\
    StronglySorted le (stages es) /\
    exists args q f0,
      @mpi_parse Demo.full 0 = inr args /\
      heap Demo.full_end
        = fl_heap_end (@flow Demo.full args q f0 (heap Demo.w0)) /\
      es = @flow_events Demo.full args q 0 1 (length (heap Demo.w0))
             (@flow Demo.full args q f0 (heap Demo.w0)).
Proof.
  assert (@mpi_run_all Demo.full 0 1 Demo.w0 = (Ok tt, Demo.full_end)) as H
    by (vm_compute; reflexivity).
  split; [exact H|].
  destruct (@pipeline_stage_order Demo.full 0 1 Demo.w0 (Ok tt)
              Demo.full_end H) as (es & Hlog & Hsorted & Hok).
  destruct (Hok eq_refl)
    as (args & q & f0 & Hargs & _ & _ & _ & _ & _ & _ & _ & _ & Hend
        & Hes & _).
  exists es. split; [exact Hlog|]. split; [exact Hsorted|].
  exists args, q, f0. split; [exact Hargs|]. split; [exact Hend|exact Hes].
Defined.

Lemma maskers_applied_in_declared_order_witness :
  Py.truthy_str (sky_mask Demo.args) = true /\
  bal_mask Demo.args = true /\
  Py.truthy_str (dla_mask Demo.args) = true /\
  @mpi_read_masks Demo.full Demo.queue Demo.args 0 Demo.w0
    = (Ok Demo.maskers, Demo.full_masks) /\
  exists sky dla,
    Demo.maskers = [MSky sky; MBALClass; MDLA dla] /\
    forall l rank w2, exists w3,
      @apply_masks Demo.full Demo.maskers l rank w2 = (Ok tt, w3).
Proof.
  assert (@mpi_read_masks Demo.full Demo.queue Demo.args 0 Demo.w0
          = (Ok Demo.maskers, Demo.full_masks)) as H
    by (vm_compute; reflexivity).
  repeat (split; [reflexivity || exact H|]).
  destruct (@maskers_applied_in_declared_order Demo.full Demo.queue Demo.args
              0 Demo.w0 Demo.maskers Demo.full_masks
              eq_refl eq_refl eq_refl H)
    as (sky & dla & Hm & Happly).
  exists sky, dla. split; [exact Hm|].
  intros l rank w2. destruct (Happly l rank w2) as (w3 & Hrun & _).
  exists w3. exact Hrun.
Defined.

Lemma short_arms_dropped_for_good_witness :
  @mpi_run_all Demo.full 0 1 Demo.w0 = (Ok tt, Demo.full_end) /\
  @mpi_run_all Demo.modelled 0 1 Demo.w0 = (Ok tt, Demo.modelled_end) /\
  (exists R, @complete_run Demo.full 0 1 Demo.w0 Demo.full_end R) /\
  exists R,
    @complete_run Demo.modelled 0 1 Demo.w0 Demo.modelled_end R /\
    forall r, absent "z" r (heap (w_masked R)) ->
              absent "z" r (heap Demo.modelled_end).
Proof.
  assert (@mpi_run_all Demo.full 0 1 Demo.w0 = (Ok tt, Demo.full_end)) as H
    by (vm_compute; reflexivity).
  assert (@mpi_run_all Demo.modelled 0 1 Demo.w0
          = (Ok tt, Demo.modelled_end)) as Hm
    by (vm_compute; reflexivity).
  split; [exact H|]. split; [exact Hm|].
  destruct (@short_arms_dropped_for_good Demo.full Demo.arm_model 0 1 "z")
    as [Hmask Hlater].
  destruct (Hmask Demo.w0 Demo.full_end H) as (R1 & HR1 & _).
  destruct (Hlater Demo.w0 Demo.modelled_end Hm) as (R & HR & Habs).
  split; [exists R1; exact HR1|].
  exists R. split; [exact HR|].
  intros r Hr. destruct (Habs r Hr) as [_ Hend].
  assert ("z" <> coadd_name Demo.arm_model) as Hne by discriminate.
  specialize (Hend Hne).
  apply Forall_cons in Hend as [_ Hend].
  apply Forall_cons in Hend as [Hw _]. exact Hw.
Defined.

(** C3 as stated fails: without maskers [apply_masks] returns at once,
    and an arm without any valid pixel, short under every positive
    minimum, is still in its spectrum. *)
Lemma short_arm_survives_without_maskers :
  ~ (forall maskers l rank w w' r s name a,
       @apply_masks Demo.plain maskers l rank w = (Ok tt, w') ->
       r ∈ items l ->
       heap w' !! r = Some s ->
       arms s !! name = Some a ->
       @min_valid_pixels Demo.plain None <= count_valid a).
Proof.
  apply (@dark_arm_survives Demo.plain). vm_compute. lia.
Qed.

Lemma spectra_kept_iff_rsnr_above_witness :
  @mpi_read_spectra_local_queue Demo.full Demo.queue Demo.args 0 Demo.w0
    = (Ok Demo.kept, Demo.full_read) /\
  (0 ∈ items Demo.kept <->
   length (heap Demo.w0) <= 0 < length (heap Demo.full_read) /\
   exists s, heap Demo.full_read !! 0 = Some s /\
             PrimFloat.ltb (min_rsnr Demo.args) (rsnr s) = true) /\
  2 ∉ items Demo.kept.
Proof.
  assert (@mpi_read_spectra_local_queue Demo.full Demo.queue Demo.args 0
            Demo.w0 = (Ok Demo.kept, Demo.full_read)) as H
    by (vm_compute; reflexivity).
  split; [exact H|].
  destruct (@spectra_kept_iff_rsnr_above Demo.full Demo.queue Demo.args 0
              Demo.w0 Demo.kept Demo.full_read H) as [Hiff Hout].
  split; [apply Hiff|].
  assert (exists s, heap Demo.full_read !! 2 = Some s /\
                    PrimFloat.leb (rsnr s) (min_rsnr Demo.args) = true)
    as (s & Hs & Hle) by (eexists; split; vm_compute; reflexivity).
  exact (Hout 2 s Hs Hle).
Defined.

Lemma remove_short_spectra_filter_witness :
  @remove_short_spectra Demo.full Demo.kept 1040 1200 (Some 0%float) 0
    Demo.full_read = (Ok Demo.kept, Demo.full_read) /\
  PrimFloat.eqb 0.2 0 = false /\
  exists l' w',
    @remove_short_spectra Demo.full Demo.kept 1040 1200 (Some 0.2%float) 0
      Demo.full_read = (Ok l', w') /\
    sublist (items l') (items Demo.kept) /\
    list_id l' = nlists Demo.full_read.
Proof.
  destruct (@remove_short_spectra_filter Demo.full Demo.kept 1040 1200
              (Some 0%float) 0 Demo.full_read) as [Hzero _].
  destruct (@remove_short_spectra_filter Demo.full Demo.kept 1040 1200
              (Some 0.2%float) 0 Demo.full_read) as [_ Hcut].
  split.
  - apply Hzero. right. exists 0%float. split; reflexivity.
  - split; [reflexivity|].
    destruct (Hcut 0.2%float eq_refl eq_refl)
      as (l' & w' & Hrun & _ & Hsub & Hid & _).
    exists l', w'. split; [exact Hrun|]. split; [exact Hsub|exact Hid].
Defined.

Lemma dla_masker_floor_witness :
  Py.truthy_str (dla_mask Demo.args) = true /\
  @mpi_read_masks Demo.full Demo.queue Demo.args 0 Demo.w0
    = (Ok Demo.maskers, Demo.full_masks) /\
  @mpi_read_masks (with_dla_model Demo.full) Demo.queue Demo.args 0 Demo.w0
    = (Ok Demo.maskers, Demo.dla_modelled_masks) /\
  (exists es,
     log Demo.full_masks = log Demo.w0 ++ es /\
     forall f t lim, EvCall (c_DLAMask f t lim) ∈ es -> lim = 0.8%float) /\
  exists d,
    last Demo.maskers = Some (MDLA d) /\ dla_mask_limit d = 0.8%float.
Proof.
  assert (@mpi_read_masks Demo.full Demo.queue Demo.args 0 Demo.w0
          = (Ok Demo.maskers, Demo.full_masks)) as H
    by (vm_compute; reflexivity).
  assert (@mpi_read_masks (with_dla_model Demo.full) Demo.queue Demo.args 0
            Demo.w0 = (Ok Demo.maskers, Demo.dla_modelled_masks)) as Hm
    by (vm_compute; reflexivity).
  split; [reflexivity|]. split; [exact H|]. split; [exact Hm|].
  destruct (@dla_masker_floor Demo.full Demo.queue Demo.args 0 Demo.w0
              eq_refl) as (Hscript & Hmodel & _).
  destruct (Hscript _ _ H) as (es & Hlog & Hlim & _).
  destruct (Hmodel _ _ Hm) as (d & Hlast & Hfloor & _).
  split.
  - exists es. split; [exact Hlog|exact Hlim].
  - exists d. split; [exact Hlast|exact Hfloor].
Defined.

Lemma main_exit_status_witness :
  @preamble_passes Demo.empty 0 1 /\
  @preamble_passes Demo.full 0 1 /\
  @preamble_passes Demo.interrupted 0 1 /\
  (@main Demo.empty Demo.w0).1 = Ok 1%Z /\
  (@main Demo.interrupted Demo.w0).1
    = Raise (Py.mkExn Py.KeyboardInterrupt "") /\
  (@main Demo.full Demo.w0).1 = Ok 0%Z.
Proof.
  assert (@preamble_passes Demo.empty 0 1) as Hpe
    by (repeat split; reflexivity).
  assert (@preamble_passes Demo.full 0 1) as Hpf
    by (repeat split; reflexivity).
  assert (@preamble_passes Demo.interrupted 0 1) as Hpi
    by (repeat split; reflexivity).
  assert (@mpi_run_all Demo.empty 0 1 (started Demo.w0)
          = (Raise (Py.mkExn Py.IndexError "list index out of range"),
             (@mpi_run_all Demo.empty 0 1 (started Demo.w0)).2)) as Hfail
    by (vm_compute; reflexivity).
  assert (@mpi_run_all Demo.interrupted 0 1 (started Demo.w0)
          = (Raise (Py.mkExn Py.KeyboardInterrupt ""),
             (@mpi_run_all Demo.interrupted 0 1 (started Demo.w0)).2))
    as Hstop by (vm_compute; reflexivity).
  assert (@mpi_run_all Demo.full 0 1 (started Demo.w0)
          = (Ok tt, (@mpi_run_all Demo.full 0 1 (started Demo.w0)).2))
    as Hok by (vm_compute; reflexivity).
  destruct (@main_exit_status Demo.empty 0 1 Demo.w0 Hpe) as [Hone _].
  destruct (@main_exit_status Demo.interrupted 0 1 Demo.w0 Hpi) as [Hout _].
  destruct (@main_exit_status Demo.full 0 1 Demo.w0 Hpf) as [_ Hzero].
  split; [exact Hpe|]. split; [exact Hpf|]. split; [exact Hpi|].
  split; [exact (f_equal fst (proj1 (Hone _ _ Hfail) eq_refl))|].
  split; [exact (f_equal fst (proj2 (Hout _ _ Hstop) eq_refl))|].
  exact (f_equal fst (Hzero _ Hok)).
Defined.

(** C7 as stated fails: interrupted while the first healpix is read,
    [mpi_run_all] raises [KeyboardInterrupt], which the clause
    [except Exception] does not catch; [main] returns no status. *)
Lemma interrupt_leaves_main :
  ~ (forall rank size w e w1,
       @preamble_passes Demo.interrupted rank size ->
       @mpi_run_all Demo.interrupted rank size (started w) = (Raise e, w1) ->
       exists w', @main Demo.interrupted w = (Ok 1%Z, w')).
Proof.
  intros Hclaim.
  assert (@preamble_passes Demo.interrupted 0 1) as Hpre
    by (repeat split; reflexivity).
  assert (@mpi_run_all Demo.interrupted 0 1 (started Demo.w0)
          = (Raise (Py.mkExn Py.KeyboardInterrupt ""),
             (@mpi_run_all Demo.interrupted 0 1 (started Demo.w0)).2))
    as Hstop by (vm_compute; reflexivity).
  destruct (Hclaim 0 1 Demo.w0 _ _ Hpre Hstop) as [w' Hone].
  assert (@main Demo.interrupted Demo.w0
          = (Raise (Py.mkExn Py.KeyboardInterrupt ""), Demo.interrupted_end))
    as Hmain by (vm_compute; reflexivity).
  rewrite Hmain in Hone. discriminate Hone.
Qed.

Lemma nonforest_pixels_removed_iff_not_kept_witness :
  @mpi_read_spectra_local_queue Demo.plain Demo.queue Demo.args_plain 0
    Demo.w0 = (Ok Demo.kept, Demo.plain_read) /\
  keep_nonforest_pixels Demo.args_plain = true /\
  exists es,
    log Demo.plain_read = log Demo.w0 ++ es /\
    forall r, EvMethod r remove_nonforest_pixels ∉ es.
Proof.
  assert (@mpi_read_spectra_local_queue Demo.plain Demo.queue
            Demo.args_plain 0 Demo.w0 = (Ok Demo.kept, Demo.plain_read))
    as H by (vm_compute; reflexivity).
  split; [exact H|]. split; [reflexivity|].
  destruct (@nonforest_pixels_removed_iff_not_kept Demo.plain Demo.queue
              Demo.args_plain 0 Demo.w0 (Ok Demo.kept) Demo.plain_read H)
    as (es & Hlog & _ & _ & Hkeep).
  exists es. split; [exact Hlog|]. exact (Hkeep eq_refl).
Defined.

Lemma apply_masks_without_maskers_witness :
  heap Demo.plain_read !! 0
    = Some (@do_set_forest_region Demo.plain 3600 9800 1040 1200
              (Demo.spectrum_of {| TARGETID := 101; HPXPIXEL := 7 |})) /\
  count_valid Demo.arm_z < @min_valid_pixels Demo.plain None /\
  exists s',
    heap (@apply_masks Demo.plain [] Demo.kept 0 Demo.plain_read).2 !! 0
      = Some s' /\
    arms s' !! "z" = Some Demo.arm_z.
Proof.
  assert (heap Demo.plain_read !! 0
          = Some (@do_set_forest_region Demo.plain 3600 9800 1040 1200
                    (Demo.spectrum_of {| TARGETID := 101; HPXPIXEL := 7 |})))
    as Hs by (vm_compute; reflexivity).
  assert (count_valid Demo.arm_z < @min_valid_pixels Demo.plain None)
    as Hshort by (vm_compute; lia).
  split; [exact Hs|]. split; [exact Hshort|].
  destruct (@apply_masks_without_maskers Demo.plain Demo.kept 0
              Demo.plain_read) as [_ Hkeep].
  apply (Hkeep 0 _ "z" Demo.arm_z Hs); [vm_compute; reflexivity|exact Hshort].
Defined.

Lemma bal_check_first_catalog_only_witness :
  bal_mask Demo.args = true /\
  @mpi_read_masks Demo.empty [] Demo.args 0 Demo.w0
    = (Raise (Py.mkExn Py.IndexError "list index out of range"),
       Demo.empty_masks) /\
  @sky_stage_passes Demo.empty Demo.args /\
  exists es,
    log Demo.empty_masks = log Demo.w0 ++ es /\
    List.filter is_bal_check es = [].
Proof.
  assert (@mpi_read_masks Demo.empty [] Demo.args 0 Demo.w0
          = (Raise (Py.mkExn Py.IndexError "list index out of range"),
             Demo.empty_masks)) as H by (vm_compute; reflexivity).
  assert (@sky_stage_passes Demo.empty Demo.args) as Hsky
    by (right; eexists; reflexivity).
  split; [reflexivity|]. split; [exact H|]. split; [exact Hsky|].
  destruct (@bal_check_first_catalog_only Demo.empty [] Demo.args 0 Demo.w0
              _ Demo.empty_masks eq_refl H)
    as (es & Hlog & _ & Hempty & _).
  exists es. split; [exact Hlog|].
  destruct (Hempty eq_refl Hsky) as [_ Hnone]. exact Hnone.
Defined.

(** * Further properties of the script *)

(** ** What a run may log *)

Section Permitted.

Context `{Q : Qsonic}.

Lemma only_silent {A} P (m : M A) :
  (forall w res w', m w = (res, w') -> log w' = log w) ->
  emits_only P m.
Proof.
  intros Hm w res w' Hrun. exists []. rewrite app_nil_r.
  split; [by eapply Hm|constructor].
Qed.

Lemma only_ret {A} P (a : A) : emits_only P (ret a).
Proof. apply only_silent. by intros w res w' [= _ <-]. Qed.

Lemma only_raise {A} P e : emits_only P (@raise A e).
Proof. apply only_silent. by intros w res w' [= _ <-]. Qed.

Lemma only_lift_exn {A} P (x : Py.Exn + A) : emits_only P (lift_exn x).
Proof. apply only_silent. destruct x; by intros w res w' [= _ <-]. Qed.

Lemma only_check_exn P x : emits_only P (check_exn x).
Proof. apply only_silent. destruct x; by intros w res w' [= _ <-]. Qed.

Lemma only_get_heap P : emits_only P get_heap.
Proof. apply only_silent. by intros w res w' [= _ <-]. Qed.

Lemma only_new_list P l : emits_only P (new_list l).
Proof. apply only_silent. by intros w res w' [= _ <-]. Qed.

Lemma only_alloc P l : emits_only P (alloc_spectra l).
Proof. apply only_silent. by intros w res w' [= _ <-]. Qed.

Lemma only_emit (P : Event -> Prop) e : P e -> emits_only P (emit e).
Proof.
  intros He w res w' [= _ <-]. exists [e]. split; [done|].
  by repeat constructor.
Qed.

Lemma only_log (P : Event -> Prop) msg lvl :
  P (EvLog lvl msg) -> emits_only P (logging_mpi msg lvl).
Proof. apply only_emit. Qed.

Lemma only_call_method (P : Event -> Prop) m r :
  P (EvMethod r m) -> emits_only P (call_method m r).
Proof.
  intros He w res w' Hrun. rewrite call_method_eq in Hrun.
  injection Hrun as _ <-. exists [EvMethod r m]. split; [done|].
  by repeat constructor.
Qed.

Lemma only_bind {A B} P (m : M A) (k : A -> M B) :
  emits_only P m ->
  (forall x w w1, m w = (Ok x, w1) -> emits_only P (k x)) ->
  emits_only P (bind m k).
Proof.
  intros Hm Hk w res w' Hrun.
  apply bind_inv in Hrun as [(e & Hrun & ->)|(x & w1 & Hrun & Hrest)].
  - by apply Hm in Hrun.
  - pose proof (Hk x w w1 Hrun) as Hkx.
    apply Hm in Hrun as (es1 & Hlog1 & Hes1).
    apply Hkx in Hrest as (es2 & Hlog2 & Hes2).
    exists (es1 ++ es2). split.
    + by rewrite Hlog2, Hlog1, app_assoc.
    + by apply Forall_app.
Qed.

Lemma only_for_each {A} P (l : list A) body :
  (forall x, emits_only P (body x)) -> emits_only P (for_each l body).
Proof.
  intros Hbody. induction l as [|x l IH]; simpl.
  - apply only_ret.
  - apply only_bind; [apply Hbody|by intros _ _ _ _].
Qed.

Lemma only_for_each_in {A} P (l : list A) body :
  (forall x, x ∈ l -> emits_only P (body x)) ->
  emits_only P (for_each l body).
Proof.
  induction l as [|x l IH]; intros Hbody; simpl.
  - apply only_ret.
  - apply only_bind; [apply Hbody; by left|intros _ _ _ _].
    apply IH. intros y Hy. apply Hbody. by right.
Qed.

Lemma only_weaken {A} (P P' : Event -> Prop) (m : M A) :
  (forall e, P e -> P' e) -> emits_only P m -> emits_only P' m.
Proof.
  intros HP Hm w res w' Hrun. apply Hm in Hrun as (es & Hlog & Hes).
  exists es. split; [done|]. eapply Forall_impl; [exact Hes|exact HP].
Qed.

End Permitted.

(** One step of the proof that a computation only emits events that
    satisfy a predicate; conditions are split with their equations. *)
Ltac only_leaf :=
  repeat first
    [ apply only_ret | apply only_raise | apply only_lift_exn
    | apply only_check_exn | apply only_get_heap | apply only_new_list
    | apply only_alloc
    | apply only_emit; cbn; solve [auto]
    | apply only_log; cbn; solve [auto]
    | apply only_call_method; cbn; solve [auto]
    | apply only_for_each; intros ?
    | match goal with
      | |- emits_only _ (bind _ _) => apply only_bind; [|intros ? ? ? _]
      | |- emits_only _ (if ?b then _ else _) => destruct b eqn:?
      | |- emits_only _ (match ?l with [] => _ | _ :: _ => _ end) =>
          destruct l
      end ].

Section PermittedRun.

Context `{Q : Qsonic}.

Lemma read_masks_kinds q args rank w res w' :
  mpi_read_masks q args rank w = (res, w') ->
  heap w' = heap w /\
  nlists w' = nlists w /\
  forall maskers, res = Ok maskers ->
    map masker_kind maskers = enabled_kinds args.
Proof.
  unfold mpi_read_masks, enabled_kinds.
  destruct (Py.truthy_str (sky_mask args)) eqn:Hsky,
    (SkyMask_init (sky_mask args)) as [e1|k] eqn:Ek,
    (bal_mask args) eqn:Hbal, q as [|cat q];
    run_simpl; rewrite ?Ek; cbn.
  all: try match goal with
       | |- context [BALMask_check_catalog ?c] =>
           destruct (BALMask_check_catalog c) as [e2|] eqn:Ec
       end; cbn.
  all: destruct (Py.truthy_str (dla_mask args)) eqn:Hdla; cbn.
  all: try match goal with
       | |- context [DLAMask_init ?a ?b ?c] =>
           destruct (DLAMask_init a b c) as [e3|d] eqn:Ed
       end; cbn.
  all: intros [= <- <-]; cbn; repeat split; try done.
  all: by intros maskers [= <-].
Qed.

(** [mpi_read_masks] never touches the store, and the maskers it returns
    are, in kind and order, the ones the options enable. *)
Theorem maskers_follow_options q args rank w res w' :
  mpi_read_masks q args rank w = (res, w') ->
  heap w' = heap w /\
  nlists w' = nlists w /\
  forall maskers, res = Ok maskers ->
    map masker_kind maskers = enabled_kinds args.
Proof. exact (read_masks_kinds q args rank w res w'). Qed.

Lemma only_read_masks rank0 q args rank :
  emits_only (permitted rank0 args) (mpi_read_masks q args rank).
Proof.
  unfold mpi_read_masks, first_catalog, concatenate_targetids.
  only_leaf.
Qed.

Lemma only_read_queue rank0 args q :
  forall acc, emits_only (permitted rank0 args) (read_queue args acc q).
Proof.
  induction q as [|cat q IH]; intros acc; cbn [read_queue].
  - apply only_ret.
  - apply only_bind; [|intros acc' _ _ _; apply IH].
    unfold read_one_healpix. only_leaf.
    apply only_call_method. cbn. by destruct (keep_nonforest_pixels args).
Qed.

Lemma only_read_spectra rank0 q args rank :
  emits_only (permitted rank0 args)
    (mpi_read_spectra_local_queue q args rank).
Proof.
  unfold mpi_read_spectra_local_queue. only_leaf. apply only_read_queue.
Qed.

Lemma only_apply_masks rank0 args maskers l rank :
  Forall (fun m => In (masker_kind m) (enabled_kinds args)) maskers ->
  emits_only (permitted rank0 args) (apply_masks maskers l rank).
Proof.
  intros Hm. unfold apply_masks.
  destruct maskers as [|m0 ms]; [apply only_ret|].
  assert (enabled_kinds args <> []) as Hne.
  { apply Forall_cons in Hm as [Hm0 _]. intros E. by rewrite E in Hm0. }
  set (maskers := m0 :: ms) in *.
  apply only_bind; [only_leaf|intros _ _ _ _].
  apply only_bind; [|intros _ _ _ _; only_leaf].
  apply only_for_each. intros spec.
  apply only_bind; [|intros _ _ _ _; only_leaf].
  apply only_for_each_in. intros m Hin.
  apply only_call_method. cbn.
  by apply (proj1 (Forall_forall _ _) Hm).
Qed.

Lemma only_remove_short rank0 args l lya1 lya2 skip_ratio rank :
  emits_only (permitted rank0 args)
    (remove_short_spectra l lya1 lya2 skip_ratio rank).
Proof. unfold remove_short_spectra. only_leaf. Qed.

Lemma only_fitter_iterate rank0 args qcfit l :
  emits_only (permitted rank0 args) (fitter_iterate qcfit l).
Proof.
  unfold fitter_iterate. only_leaf.
  apply only_silent. by intros ? ? ? [= _ <-].
Qed.

(** Every event of every run of [mpi_run_all], failed or not, is the
    parsing of the options or an event the parsed options allow. *)
Lemma only_mpi_run_all rank size :
  emits_only (run_event rank) (mpi_run_all rank size).
Proof.
  unfold mpi_run_all.
  apply only_bind; [apply only_emit; by left|intros _ _ _ _].
  apply only_bind; [apply only_lift_exn|intros args w0 w1 Hargs].
  apply lift_exn_ok_inv in Hargs as [Hargs _].
  apply (only_weaken (permitted rank args));
    [intros e He; right; by exists args|].
  apply only_bind; [|intros _ _ _ _].
  { destruct (Nat.eqb rank 0 && Py.truthy_str (outdir args)) eqn:Hc;
      [|apply only_ret].
    apply andb_true_iff in Hc as [Hr%Nat.eqb_eq Ho]. only_leaf. }
  apply only_bind; [only_leaf|intros _ _ _ _].
  apply only_bind; [only_leaf|intros q _ _ _].
  apply only_bind; [only_leaf|intros _ _ _ _].
  apply only_bind; [only_leaf|intros _ _ _ _].
  apply only_bind; [apply only_read_masks|intros maskers wa wb Hmasks].
  apply read_masks_kinds in Hmasks as (_ & _ & Hkinds).
  specialize (Hkinds maskers eq_refl).
  apply only_bind; [apply only_read_spectra|intros l1 _ _ _].
  apply only_bind; [|intros _ _ _ _].
  { apply only_apply_masks. rewrite <- Hkinds.
    apply Forall_forall. intros m Hm. by apply in_map, list_elem_of_In. }
  apply only_bind; [apply only_remove_short|intros l2 _ _ _].
  apply only_bind; [only_leaf|intros _ _ _ _].
  apply only_bind; [only_leaf|intros _ _ _ _].
  apply only_bind; [only_leaf|intros _ _ _ _].
  apply only_bind; [only_leaf|intros f0 _ _ _].
  apply only_bind; [only_leaf|intros _ _ _ _].
  apply only_bind; [apply only_fitter_iterate|intros qcfit _ _ _].
  only_leaf.
Qed.

End PermittedRun.

Section RunOptions.

Context `{Q : Qsonic}.

Lemma run_events rank size w res w' :
  mpi_run_all rank size w = (res, w') ->
  exists es, log w' = log w ++ es /\
             forall e, e ∈ es -> run_event rank e.
Proof.
  intros Hrun. apply only_mpi_run_all in Hrun as (es & Hlog & Hes).
  exists es. split; [done|]. by apply Forall_forall.
Qed.

(** On every run, failed or not, the output directory is created at most
    by the process of rank 0, and only when the option [outdir] is set;
    the directory is the one of the parsed options. *)
Theorem output_dir_created_by_master_only rank size w res w' :
  mpi_run_all rank size w = (res, w') ->
  exists es,
    log w' = log w ++ es /\
    forall d, EvCall (c_os_makedirs d) ∈ es ->
      rank = 0 /\ Py.truthy_str d = true /\
      exists args, mpi_parse rank = inr args /\ d = outdir args.
Proof.
  intros Hrun. apply run_events in Hrun as (es & Hlog & Hes).
  exists es. split; [done|]. intros d Hd.
  destruct (Hes _ Hd) as [[=]|(args & Hargs & Hr & Ht & Hd')].
  repeat split; try done. by exists args.
Qed.

(** On every run, failed or not, [coadd_arms_forest] is only called when
    the option [coadd_arms] is set, and [remove_nonforest_pixels] only when
    [keep_nonforest_pixels] is not. *)
Theorem optional_steps_follow_options rank size w res w' :
  mpi_run_all rank size w = (res, w') ->
  exists es,
    log w' = log w ++ es /\
    (forall r v, EvMethod r (coadd_arms_forest v) ∈ es ->
       exists args, mpi_parse rank = inr args /\ coadd_arms args = true) /\
    (forall r, EvMethod r remove_nonforest_pixels ∈ es ->
       exists args, mpi_parse rank = inr args /\
                    keep_nonforest_pixels args = false).
Proof.
  intros Hrun. apply run_events in Hrun as (es & Hlog & Hes).
  exists es. split; [done|]. split.
  - intros r v He. destruct (Hes _ He) as [[=]|(args & Hargs & Hp)].
    by exists args.
  - intros r He. destruct (Hes _ He) as [[=]|(args & Hargs & Hp)].
    by exists args.
Qed.

(** On every run, failed or not, a mask that is not asked for leaves no
    trace: the sky, BAL and DLA maskers are constructed or checked, and
    applied to a spectrum, only when their own option is set;
    [drop_short_arms] is called at the mask stage only when some mask is
    asked for; and the DLA floor is always 0.8. *)
Theorem masks_follow_options rank size w res w' :
  mpi_run_all rank size w = (res, w') ->
  exists es,
    log w' = log w ++ es /\
    forall e, e ∈ es ->
      match e with
      | EvCall (c_SkyMask _) | EvMethod _ (masker_apply (MSky _)) =>
          exists args, mpi_parse rank = inr args /\
                       Py.truthy_str (sky_mask args) = true
      | EvCall (c_BALMask_check_catalog _)
      | EvMethod _ (masker_apply MBALClass) =>
          exists args, mpi_parse rank = inr args /\ bal_mask args = true
      | EvCall (c_DLAMask _ _ lim) =>
          lim = 0.8%float /\
          exists args, mpi_parse rank = inr args /\
                       Py.truthy_str (dla_mask args) = true
      | EvMethod _ (masker_apply (MDLA _)) =>
          exists args, mpi_parse rank = inr args /\
                       Py.truthy_str (dla_mask args) = true
      | EvMethod _ (drop_short_arms None) =>
          exists args, mpi_parse rank = inr args /\
            (Py.truthy_str (sky_mask args) = true \/ bal_mask args = true
             \/ Py.truthy_str (dla_mask args) = true)
      | _ => True
      end.
Proof.
  intros Hrun. apply run_events in Hrun as (es & Hlog & Hes).
  exists es. split; [done|]. intros e He.
  destruct (Hes _ He) as [->|(args & Hargs & Hp)]; [done|].
  unfold permitted, enabled_kinds in Hp.
  destruct e as [lvl msg|r [| |[k| |d]|[x|]| |]|[]]; try done.
  - exists args. split; [done|].
    destruct (Py.truthy_str (sky_mask args)); [done|].
    destruct (bal_mask args), (Py.truthy_str (dla_mask args));
      cbn in Hp; intuition discriminate.
  - exists args. split; [done|].
    destruct (bal_mask args); [done|].
    destruct (Py.truthy_str (sky_mask args)),
      (Py.truthy_str (dla_mask args)); cbn in Hp; intuition discriminate.
  - exists args. split; [done|].
    destruct (Py.truthy_str (dla_mask args)); [done|].
    destruct (Py.truthy_str (sky_mask args)), (bal_mask args);
      cbn in Hp; intuition discriminate.
  - exists args. split; [done|].
    destruct (Py.truthy_str (sky_mask args)); [by left|].
    destruct (bal_mask args); [right; by left|].
    destruct (Py.truthy_str (dla_mask args)); [right; by right|].
    by cbn in Hp.
  - exists args. by destruct Hp.
  - by exists args.
  - destruct Hp as (Hd & _ & ->). split; [done|]. by exists args.
Qed.

End RunOptions.

Section MainStatus.

Context `{Q : Qsonic}.

Lemma main_try_inv rank size w res w' :
  main_try rank size w = (res, w') ->
  (res = Ok 0%Z /\ mpi_run_all rank size w = (Ok tt, w')) \/
  (res = Ok 1%Z /\
   exists e w1,
     mpi_run_all rank size w = (Raise e, w1) /\
     Py.is_Exception (Py.exn_class e) = true /\
     heap w' = heap w1 /\
     log w' = log w1 ++ [EvLog "error" (Py.exn_msg e)]) \/
  (exists e,
     res = Raise e /\ Py.is_Exception (Py.exn_class e) = false /\
     mpi_run_all rank size w = (Raise e, w')).
Proof.
  unfold main_try, try_except, bind.
  destruct (mpi_run_all rank size w) as [[[]|e] w1].
  - intros [= <- <-]. by left.
  - destruct (Py.is_Exception (Py.exn_class e)) eqn:He.
    + intros [= <- <-]. right; left. split; [done|]. by exists e, w1.
    + intros [= <- <-]. right; right. by exists e.
Qed.

(** A run of [main] reaches its [try] statement, or one of the
    statements before it raises; these only log the calls they make. *)
Lemma main_inv w res w' :
  main w = (res, w') ->
  (exists rank size,
     preamble_passes rank size /\
     main_try rank size (started w) = (res, w')) \/
  (exists e es,
     res = Raise e /\ log w' = log w ++ es /\
     forall ev, ev ∈ es -> exists c, ev = EvCall c).
Proof.
  unfold main. run_simpl.
  destruct import_mpi4py as [e1|] eqn:Himport; cbn.
  { intros [= <- <-]. right. eexists _, [_]. split; [done|].
    split; [done|]. intros ev Hev. in_concrete Hev. eauto. }
  destruct comm_Get_rank as [e2|rank] eqn:Hrank; cbn.
  { intros [= <- <-]. right. eexists _, [_; _]. split; [done|].
    split; [by rewrite <- !app_assoc|].
    intros ev Hev. in_concrete Hev; eauto. }
  destruct comm_Get_size as [e3|size] eqn:Hsize; cbn.
  { intros [= <- <-]. right. eexists _, [_; _; _]. split; [done|].
    split; [by rewrite <- !app_assoc|].
    intros ev Hev. in_concrete Hev; eauto. }
  destruct (logging_basicConfig "DEBUG") as [e4|] eqn:Hconfig; cbn.
  { intros [= <- <-]. right. eexists _, [_; _; _; _]. split; [done|].
    split; [by rewrite <- !app_assoc|].
    intros ev Hev. in_concrete Hev; eauto. }
  destruct (logging_captureWarnings true) as [e5|] eqn:Hcapture; cbn.
  { intros [= <- <-]. right. eexists _, [_; _; _; _; _]. split; [done|].
    split; [by rewrite <- !app_assoc|].
    intros ev Hev. in_concrete Hev; eauto. }
  intros Hmain. left. exists rank, size. split; [done|].
  rewrite <- Hmain. unfold started, preamble_events.
  by rewrite <- !app_assoc.
Qed.

(** [main] logs at level error exactly when it returns 1: the statements
    before the [try] log no message, and no stage of [mpi_run_all] logs
    at that level. *)
Theorem error_logged_iff_status_one w res w' :
  main w = (res, w') ->
  exists es,
    log w' = log w ++ es /\
    ((exists msg, EvLog "error" msg ∈ es) <-> res = Ok 1%Z).
Proof.
  intros Hmain.
  assert (forall rank (es : list Event),
            (forall e, e ∈ es -> run_event rank e) ->
            forall msg, EvLog "error" msg ∉ preamble_events ++ es) as Hinfo.
  { intros rank es Hes msg Hin. apply elem_of_app in Hin as [Hin|Hin].
    - unfold preamble_events in Hin. by in_concrete Hin.
    - by destruct (Hes _ Hin) as [[=]|(args & _ & [=])]. }
  apply main_inv in Hmain
    as [(rank & size & _ & Htry)|(e & es & -> & Hlog & Hes)].
  - apply main_try_inv in Htry
      as [[-> Hrun]|[[-> (e & w1 & Hrun & He & _ & Hlog')]
                    |(e & -> & _ & Hrun)]];
      apply run_events in Hrun as (es & Hlog & Hes); cbn [started log] in Hlog.
    + exists (preamble_events ++ es). split; [by rewrite Hlog, app_assoc|].
      split; [|done]. intros [msg Hmsg]. by apply (Hinfo rank es Hes) in Hmsg.
    + exists ((preamble_events ++ es) ++ [EvLog "error" (Py.exn_msg e)]).
      split.
      * by rewrite Hlog', Hlog, !app_assoc.
      * split; [done|]. intros _. exists (Py.exn_msg e).
        apply elem_of_app. right. by left.
    + exists (preamble_events ++ es). split; [by rewrite Hlog, app_assoc|].
      split; [|done]. intros [msg Hmsg]. by apply (Hinfo rank es Hes) in Hmsg.
  - exists es. split; [done|]. split; [|done].
    intros [msg Hmsg]. by destruct (Hes _ Hmsg) as [c [=]].
Qed.

End MainStatus.

(** ** More on the reader, the masks and the length cut *)

Section Stages2.

Context `{Q : Qsonic}.

Lemma filter_sorted {A} (R : A -> A -> Prop) f l :
  StronglySorted R l -> StronglySorted R (List.filter f l).
Proof.
  induction 1 as [|x l Hl IH Hx]; simpl; [constructor|].
  destruct (f x); [|done]. constructor; [done|].
  apply Forall_forall. intros y Hy%list_elem_of_In%List.filter_In.
  destruct Hy as [Hy _]. apply list_elem_of_In in Hy.
  by apply (proj1 (Forall_forall _ _) Hx).
Qed.

Lemma seq_sorted k : forall a, StronglySorted lt (seq a k).
Proof.
  induction k as [|k IH]; intros a; simpl; constructor; [apply IH|].
  apply Forall_forall. intros y Hy%elem_of_seq. lia.
Qed.

Lemma sorted_NoDup l : StronglySorted lt l -> NoDup l.
Proof.
  induction 1 as [|x l Hl IH Hx]; constructor; [|done].
  intros Hin. apply (proj1 (Forall_forall _ _) Hx) in Hin. lia.
Qed.

Lemma filter_sublist {A} (f : A -> bool) l : sublist (List.filter f l) l.
Proof.
  induction l as [|x l IH]; simpl; [constructor|].
  destruct (f x); by constructor.
Qed.

Lemma read_spectra_sorted q args rank w l w' :
  mpi_read_spectra_local_queue q args rank w = (Ok l, w') ->
  list_id l = nlists w /\
  StronglySorted lt (items l) /\
  NoDup (items l) /\
  forall r, r ∈ items l -> is_Some (heap w' !! r).
Proof.
  intros Hrun. apply mpi_read_spectra_run in Hrun
    as (es & k & _ & _ & Hlen & _ & _ & _ & Hl).
  destruct (Hl l eq_refl) as [Hid Hitems].
  assert (StronglySorted lt (items l)) as Hsorted.
  { rewrite Hitems. apply filter_sorted, seq_sorted. }
  repeat split; try done.
  - by apply sorted_NoDup.
  - intros r Hr. rewrite Hitems in Hr.
    apply list_elem_of_In, List.filter_In in Hr as [Hr%in_seq _].
    apply lookup_lt_is_Some. lia.
Qed.

(** The list the reader stage returns is a new list object; its items are
    in the order the spectra were read, without repetition, and each is an
    object of the store. *)
Theorem kept_spectra_ordered_and_stored q args rank w l w' :
  mpi_read_spectra_local_queue q args rank w = (Ok l, w') ->
  list_id l = nlists w /\
  StronglySorted lt (items l) /\
  NoDup (items l) /\
  forall r, r ∈ items l -> is_Some (heap w' !! r).
Proof. exact (read_spectra_sorted q args rank w l w'). Qed.

Lemma only_read_queue_no_reduce args q :
  forall acc,
    emits_only (fun e => is_reduce e = false) (read_queue args acc q).
Proof.
  induction q as [|cat q IH]; intros acc; cbn [read_queue].
  - apply only_ret.
  - apply only_bind; [|intros acc' _ _ _; apply IH].
    unfold read_one_healpix. only_leaf.
Qed.

Lemma filter_none {A} (f : A -> bool) l :
  Forall (fun x => f x = false) l -> List.filter f l = [].
Proof.
  induction 1 as [|x l Hx _ IH]; simpl; [done|]. by rewrite Hx.
Qed.

(** The collective [comm.reduce] of the reader stage is called once, with
    the number of spectra kept, when the stage returns, and not at all
    when reading a healpix raises. *)
Theorem reduce_reports_kept_count q args rank w res w' :
  mpi_read_spectra_local_queue q args rank w = (res, w') ->
  exists es,
    log w' = log w ++ es /\
    List.filter is_reduce es =
      match res with
      | Ok l => [EvCall (c_comm_reduce (length (items l)))]
      | Raise _ => []
      end.
Proof.
  unfold mpi_read_spectra_local_queue. run_simpl.
  destruct (read_queue _ _ _ _) as [[its|e] w1] eqn:Hq;
    apply only_read_queue_no_reduce in Hq as (es & Hlog & Hes);
    apply filter_none in Hes;
    cbn [heap nlists log] in *; intros [= <- <-]; cbn [heap nlists log].
  - exists (EvLog "info" "Reading spectra." :: es
             ++ [EvCall (c_comm_reduce (length its));
                 EvLog "info"
                   "All {nspec_all} spectra are read in {etime:.1f} mins."]).
    split; [rewrite Hlog; by rewrite <- !app_assoc|].
    cbn. by rewrite List.filter_app, Hes.
  - exists (EvLog "info" "Reading spectra." :: es).
    split; [rewrite Hlog; by rewrite <- !app_assoc|]. done.
Qed.

Lemma dla_empty_queue_raises args rank w :
  Py.truthy_str (dla_mask args) = true ->
  bal_mask args = false ->
  sky_stage_passes args ->
  exists w' es,
    mpi_read_masks [] args rank w =
      (Raise (Py.mkExn Py.ValueError
                "need at least one array to concatenate"), w') /\
    log w' = log w ++ es /\
    List.filter is_dla_ctor es = [].
Proof.
  intros Hdla Hbal Hsky. unfold mpi_read_masks.
  rewrite Hdla, Hbal.
  destruct Hsky as [Hsky|[k Hk]].
  - rewrite Hsky. run_simpl. eexists _, [_]. by repeat split.
  - destruct (Py.truthy_str (sky_mask args)); run_simpl; rewrite ?Hk; cbn.
    + eexists _, [_; _; _]. cbn. by rewrite <- !app_assoc.
    + eexists _, [_]. by repeat split.
Qed.

(** With the DLA mask asked for, the BAL mask not, and an empty local
    queue, [mpi_read_masks] raises [ValueError] (nothing to concatenate)
    once the sky stage has passed, and the DLA masker is never
    constructed. *)
Theorem dla_mask_needs_nonempty_queue args rank w :
  Py.truthy_str (dla_mask args) = true ->
  bal_mask args = false ->
  sky_stage_passes args ->
  exists w' es,
    mpi_read_masks [] args rank w =
      (Raise (Py.mkExn Py.ValueError
                "need at least one array to concatenate"), w') /\
    log w' = log w ++ es /\
    List.filter is_dla_ctor es = [].
Proof. exact (dla_empty_queue_raises args rank w). Qed.

Lemma heap_calls_frame cs h r :
  (forall c, c ∈ cs -> c.1 <> r) -> heap_calls cs h !! r = h !! r.
Proof.
  intros Hcs. rewrite heap_calls_lookup, calls_on_nil by done.
  by destruct (h !! r).
Qed.

Lemma apply_masks_untouched maskers l rank w :
  exists w',
    apply_masks maskers l rank w = (Ok tt, w') /\
    length (heap w') = length (heap w) /\
    nlists w' = nlists w /\
    forall r, r ∉ items l -> heap w' !! r = heap w !! r.
Proof.
  destruct maskers as [|m0 ms].
  - exists w. by repeat split.
  - eexists. split; [by apply apply_masks_run|]. cbn [heap nlists].
    split; [apply heap_calls_length|]. split; [done|].
    intros r Hr. apply heap_calls_frame. intros c Hc.
    apply list_elem_of_In, in_flat_map in Hc as (x & Hx & Hc).
    apply list_elem_of_In in Hx, Hc.
    rewrite (mask_calls_target _ _ _ Hc). intros ->. done.
Qed.

(** [apply_masks] never raises, creates no object and no list, and leaves
    every object outside [spectra_list] as it was. *)
Theorem apply_masks_frame maskers l rank w :
  exists w',
    apply_masks maskers l rank w = (Ok tt, w') /\
    length (heap w') = length (heap w) /\
    nlists w' = nlists w /\
    forall r, r ∉ items l -> heap w' !! r = heap w !! r.
Proof. exact (apply_masks_untouched maskers l rank w). Qed.

(** The length cut is idempotent: run on its own result, in the world it
    left, [remove_short_spectra] keeps every item; and it never lengthens
    the list. *)
Theorem remove_short_spectra_idempotent l lya1 lya2 skip_ratio rank w l1 w1 :
  remove_short_spectra l lya1 lya2 skip_ratio rank w = (Ok l1, w1) ->
  length (items l1) <= length (items l) /\
  exists l2 w2,
    remove_short_spectra l1 lya1 lya2 skip_ratio rank w1 = (Ok l2, w2) /\
    items l2 = items l1.
Proof.
  unfold remove_short_spectra.
  destruct (negb (Py.truthy_float skip_ratio)); run_simpl.
  - intros [= <- <-]. split; [done|]. by eexists _, _.
  - intros [= <- <-]. cbn [items heap]. split.
    + apply sublist_length, filter_sublist.
    + eexists _, _. split; [reflexivity|]. cbn [items].
      generalize (items l). clear. intros l.
      induction l as [|r l IH]; simpl; [done|].
      destruct (spec_is_long _ _ _ r) eqn:Hr; simpl; [|done].
      by rewrite Hr, IH.
Qed.

End Stages2.

(** ** More on the whole run *)

Section WorkingSet.

Context `{Q : Qsonic}.

Lemma remove_short_spectra_sublist l lya1 lya2 skip_ratio rank w l' w' :
  remove_short_spectra l lya1 lya2 skip_ratio rank w = (Ok l', w') ->
  sublist (items l') (items l).
Proof.
  unfold remove_short_spectra.
  destruct (negb _); run_simpl; intros [= <- _]; [done|].
  apply filter_sublist.
Qed.

Lemma remove_short_spectra_sorted l lya1 lya2 skip_ratio rank w l' w' :
  remove_short_spectra l lya1 lya2 skip_ratio rank w = (Ok l', w') ->
  StronglySorted lt (items l) -> StronglySorted lt (items l').
Proof.
  unfold remove_short_spectra.
  destruct (negb _); run_simpl; intros [= <- _]; [done|].
  apply filter_sorted.
Qed.

Lemma sublist_in {A} (l1 l2 : list A) x :
  sublist l1 l2 -> x ∈ l1 -> x ∈ l2.
Proof.
  induction 1 as [|y l1 l2 _ IH|y l1 l2 _ IH]; intros Hx; [done| |].
  - apply elem_of_cons in Hx as [->|Hx]; [by left|right; by apply IH].
  - right. by apply IH.
Qed.

Lemma apply_updates_length upd l : forall i h,
  length (apply_updates upd i l h) = length h.
Proof.
  induction l as [|r l IH]; intros i h; simpl; [done|].
  by rewrite IH, length_alter.
Qed.

Lemma apply_updates_frame upd l r : forall i h,
  r ∉ l -> apply_updates upd i l h !! r = h !! r.
Proof.
  induction l as [|r' l IH]; intros i h Hr; simpl; [done|].
  apply not_elem_of_cons in Hr as [Hne Hr].
  rewrite IH by done. by apply list_lookup_alter_ne.
Qed.

Lemma calls_frame (f : ref -> Method) l h r :
  r ∉ l -> heap_calls (map (fun x => (x, f x)) l) h !! r = h !! r.
Proof.
  intros Hr. apply heap_calls_frame. intros c Hc.
  apply list_elem_of_fmap in Hc as (x & -> & Hx). cbn. by intros ->.
Qed.

(** The working set only shrinks: in a run that returns, the spectra
    saved are a sublist of the spectra kept by the length cut, themselves a
    sublist of the spectra the reader returned, all in reading order and
    without repetition. *)
Theorem saved_spectra_sublist_of_read rank size w w' :
  mpi_run_all rank size w = (Ok tt, w') ->
  exists R,
    complete_run rank size w w' R /\
    sublist (run_valid R) (items (run_kept R)) /\
    sublist (items (run_kept R)) (items (run_read R)) /\
    StronglySorted lt (run_valid R) /\
    NoDup (run_valid R).
Proof.
  intros Hrun. apply mpi_run_all_ok_inv in Hrun as [R HR].
  exists R. split; [done|].
  destruct HR as (_ & _ & _ & _ & Hread & _ & Hshort & _).
  apply read_spectra_sorted in Hread as (_ & Hsorted & _).
  pose proof (remove_short_spectra_sorted _ _ _ _ _ _ _ _ Hshort Hsorted)
    as Hkept.
  apply remove_short_spectra_sublist in Hshort.
  assert (StronglySorted lt (run_valid R)) as Hs
    by by apply filter_sorted.
  split; [apply filter_sublist|]. split; [done|]. split; [done|].
  by apply sorted_NoDup.
Qed.

(** In a run that returns, no object is created after the reader stage,
    and a spectrum the reader left out of its list is never touched
    again: at the end it is as the reader stage left it. *)
Theorem excluded_spectra_frozen rank size w w' :
  mpi_run_all rank size w = (Ok tt, w') ->
  exists R,
    complete_run rank size w w' R /\
    length (heap w') = length (heap (w_read R)) /\
    forall r, r ∉ items (run_read R) ->
              heap w' !! r = heap (w_read R) !! r.
Proof.
  intros Hrun. apply mpi_run_all_ok_inv in Hrun as [R HR].
  exists R. split; [done|].
  destruct HR as (_ & _ & _ & _ & _ & Happly & Hshort & Hsm & _
                  & _ & Hfit & Hout & _ & _).
  destruct (apply_masks_untouched (run_maskers R) (run_read R) rank (w_read R))
    as (wm & Hm & Hlen & _ & Hframe).
  rewrite Hm in Happly. injection Happly as ->.
  pose proof (remove_short_spectra_sublist _ _ _ _ _ _ _ _ Hshort) as Hsub.
  apply remove_short_spectra_heap in Hshort.
  apply fitter_iterate_heap in Hfit.
  split.
  - rewrite Hout, heap_calls_length, Hfit, apply_updates_length, Hsm,
      heap_calls_length. by rewrite Hshort.
  - intros r Hr.
    assert (r ∉ items (run_kept R)) as Hk.
    { intros Hin. apply Hr. by eapply sublist_in. }
    assert (r ∉ run_valid R) as Hv.
    { intros Hin. apply Hk. eapply sublist_in; [|exact Hin].
      apply filter_sublist. }
    rewrite Hout, heap_calls_app.
    unfold clean_calls, coadd_calls.
    rewrite (calls_frame (fun _ => drop_short_arms _)) by done.
    assert (forall h, heap_calls
              (if coadd_arms (run_args R)
               then map (fun r0 =>
                      (r0, coadd_arms_forest (varlss_interp (run_qcfit R))))
                      (run_valid R)
               else []) h !! r = h !! r) as ->.
    { intros h. destruct (coadd_arms _); [|done].
      by apply (calls_frame (fun _ => coadd_arms_forest _)). }
    rewrite Hfit, apply_updates_frame by done.
    rewrite Hsm. unfold smooth_calls.
    rewrite (calls_frame (fun _ => set_smooth_ivar)) by done.
    rewrite Hshort. by apply Hframe.
Qed.

End WorkingSet.

Section Failure.

Context `{Q : Qsonic}.

Lemma saves_last_bind {A B} a b (m : M A) (k : A -> M B) :
  b < 10 -> emits a b m -> (forall x, saves_last (k x)) ->
  saves_last (bind m k).
Proof.
  intros Hb Hm Hk w res w' Hrun.
  assert (forall es l d v p n, staged a b es ->
            EvCall (c_save_deltas l d v p n) ∉ es) as Hnone.
  { intros es l d v p n Hes Hin.
    pose proof (staged_in a b es _ 10 Hes Hin eq_refl). lia. }
  apply bind_inv in Hrun as [(e & Hrun & ->)|(x & w1 & Hrun & Hrest)].
  - apply Hm in Hrun as (es & Hlog & Hes). exists es. split; [done|].
    intros e' _ l d v p n Hin. by apply Hnone in Hin.
  - apply Hm in Hrun as (es1 & Hlog1 & Hes1).
    apply Hk in Hrest as (es2 & Hlog2 & Hes2).
    exists (es1 ++ es2). split; [by rewrite Hlog2, Hlog1, app_assoc|].
    intros e He l d v p n Hin. apply elem_of_app in Hin as [Hin|Hin].
    + by apply Hnone in Hin.
    + by apply (Hes2 e He l d v p n).
Qed.

Lemma saves_last_mpi_run_all rank size : saves_last (mpi_run_all rank size).
Proof.
  unfold mpi_run_all.
  apply (saves_last_bind 0 0); [lia|emits_leaf|intros _].
  apply (saves_last_bind 0 0); [lia|emits_leaf|intros args].
  apply (saves_last_bind 0 0); [lia|emits_leaf|intros _].
  apply (saves_last_bind 1 1); [lia|emits_leaf|intros _].
  apply (saves_last_bind 1 1); [lia|emits_leaf|intros q].
  apply (saves_last_bind 1 1); [lia|emits_leaf|intros _].
  apply (saves_last_bind 1 1); [lia|emits_leaf|intros _].
  apply (saves_last_bind 2 2); [lia|apply emits_read_masks|intros maskers].
  apply (saves_last_bind 3 3); [lia|apply emits_read_spectra|intros l1].
  apply (saves_last_bind 4 4); [lia|apply emits_apply_masks|intros _].
  apply (saves_last_bind 5 5); [lia|apply emits_remove_short|intros l2].
  apply (saves_last_bind 6 6); [lia|emits_leaf|intros _].
  apply (saves_last_bind 7 7); [lia|emits_leaf|intros _].
  apply (saves_last_bind 7 7); [lia|emits_leaf|intros _].
  apply (saves_last_bind 7 7); [lia|emits_leaf|intros f0].
  apply (saves_last_bind 7 7); [lia|emits_leaf|intros _].
  apply (saves_last_bind 7 7); [lia|apply emits_fitter_iterate|intros qcfit].
  apply (saves_last_bind 7 7); [lia|emits_leaf|intros h].
  apply (saves_last_bind 7 7); [lia|emits_leaf|intros lv].
  apply (saves_last_bind 8 8); [lia|emits_leaf|intros _].
  apply (saves_last_bind 9 9); [lia|emits_leaf|intros _].
  apply (saves_last_bind 9 9); [lia|emits_leaf|intros _].
  apply (saves_last_bind 9 9); [lia|emits_leaf|intros _].
  apply (saves_last_bind 9 9); [lia|emits_leaf|intros h'].
  intros w res w'. run_simpl.
  destruct (save_deltas _ _ _ _ _) as [e|] eqn:Hsave; intros [= <- <-].
  - eexists [_]. split; [done|]. intros e' [= <-] l d v b k Hin.
    apply list_elem_of_singleton in Hin. injection Hin as -> -> -> -> ->.
    by exists h'.
  - eexists [_]. split; [done|]. by intros e' [=].
Qed.

(** A run that fails before [save_deltas] saves nothing: when
    [mpi_run_all] raises, either [save_deltas] was not called, or it is
    [save_deltas] that raised the exception. *)
Theorem failed_run_saves_nothing rank size w e w' :
  mpi_run_all rank size w = (Raise e, w') ->
  exists es,
    log w' = log w ++ es /\
    forall l d v b k, EvCall (c_save_deltas l d v b k) ∈ es ->
      exists h, save_deltas (deref h l) d v b k = Some e.
Proof.
  intros Hrun. apply saves_last_mpi_run_all in Hrun as (es & Hlog & Hes).
  exists es. split; [done|]. by apply Hes.
Qed.

End Failure.

Section EmptyPartition.

Context `{Q : Qsonic}.

(** With an empty catalog partition, a run that returns has read nothing
    and changed no object, and has still called [qcfit.iterate] and, last,
    [save_deltas], each with an empty list. *)
Theorem empty_partition_run rank size w w' args :
  mpi_parse rank = inr args ->
  mpi_read_local_qso_catalog (catalog args) rank size (mock_analysis args)
    (keep_surveys args) = inr [] ->
  mpi_run_all rank size w = (Ok tt, w') ->
  heap w' = heap w /\
  EvCall (c_iterate []) ∈ log w' /\
  exists qcfit,
    last (log w') =
      Some (EvCall (c_save_deltas [] (outdir args) (varlss_interp qcfit)
                      (save_by_hpx args) rank)).
Proof.
  intros Hargs Hcat Hrun.
  apply mpi_run_all_ok_inv_catalog in Hrun as (R & HR & Hq & _).
  destruct HR as (Hargs' & _ & Hh1 & Hmasks & Hread & Happly & Hshort & Hsm
                  & _ & _ & Hfit & Hout & Hlog & _).
  rewrite Hargs in Hargs'. injection Hargs' as Ha. rewrite <- Ha in *.
  rewrite Hcat in Hq. injection Hq as Hq. rewrite <- Hq in *.
  injection Hread as Hl1 Hw3.
  assert (items (run_read R) = []) as Hitems by by rewrite <- Hl1.
  apply read_masks_kinds in Hmasks as (Hh2 & _ & _).
  destruct (apply_masks_untouched (run_maskers R) (run_read R) rank
              (w_read R)) as (wm & Hm & Hlen & _ & Hframe).
  rewrite Hm in Happly. injection Happly as ->.
  pose proof (remove_short_spectra_sublist _ _ _ _ _ _ _ _ Hshort) as Hsub.
  rewrite Hitems in Hsub. apply sublist_nil_r in Hsub.
  apply remove_short_spectra_heap in Hshort.
  assert (run_valid R = []) as Hvalid by (unfold run_valid; by rewrite Hsub).
  assert (log (w_fit R) = log (w_smooth R) ++ [EvCall (c_iterate [])])
    as Hlogfit.
  { revert Hfit. unfold fitter_iterate. rewrite Hsub. run_simpl.
    destruct (it_exn _); by intros [= _ <-]. }
  apply fitter_iterate_heap in Hfit. rewrite Hsub in Hfit, Hsm.
  cbn in Hfit, Hsm.
  assert (heap (w_masked R) = heap (w_read R)) as Hmasked.
  { apply list_eq. intros r. apply Hframe. rewrite Hitems.
    apply not_elem_of_nil. }
  split; [|split].
  - rewrite Hout, Hvalid. unfold coadd_calls, clean_calls.
    destruct (coadd_arms _); cbn;
      by rewrite Hfit, Hsm, Hshort, Hmasked, <- Hw3, Hh2, Hh1.
  - rewrite Hlog, Hlogfit. apply elem_of_app. left.
    apply elem_of_app. right. by left.
  - exists (run_qcfit R). rewrite Hlog, Hvalid. unfold output_events.
    rewrite !app_assoc.
    match goal with
    | |- last (?l ++ [?a; ?b; ?c]) = _ =>
        change (l ++ [a; b; c]) with (l ++ [a; b] ++ [c])
    end.
    rewrite !app_assoc. apply last_snoc.
Qed.





End EmptyPartition.

(** ** The further properties at work on the small concrete world *)

Lemma maskers_follow_options_witness :
  @mpi_read_masks Demo.full Demo.queue Demo.args 0 Demo.w0
    = (Ok Demo.maskers, Demo.full_masks) /\
  heap Demo.full_masks = heap Demo.w0 /\
  map masker_kind Demo.maskers = enabled_kinds Demo.args.
Proof.
  assert (@mpi_read_masks Demo.full Demo.queue Demo.args 0 Demo.w0
          = (Ok Demo.maskers, Demo.full_masks)) as H
    by (vm_compute; reflexivity).
  split; [exact H|].
  destruct (@maskers_follow_options Demo.full Demo.queue Demo.args 0
              Demo.w0 _ _ H) as (Hheap & _ & Hkinds).
  split; [exact Hheap|]. exact (Hkinds Demo.maskers eq_refl).
Defined.

Lemma dla_mask_needs_nonempty_queue_witness :
  Py.truthy_str (dla_mask Demo.args_dla) = true /\
  bal_mask Demo.args_dla = false /\
  @sky_stage_passes Demo.dla_empty Demo.args_dla /\
  exists w' es,
    @mpi_read_masks Demo.dla_empty [] Demo.args_dla 0 Demo.w0 =
      (Raise (Py.mkExn Py.ValueError
                "need at least one array to concatenate"), w') /\
    log w' = log Demo.w0 ++ es /\
    List.filter is_dla_ctor es = [].
Proof.
  assert (@sky_stage_passes Demo.dla_empty Demo.args_dla) as Hsky
    by (left; reflexivity).
  split; [reflexivity|]. split; [reflexivity|]. split; [exact Hsky|].
  exact (@dla_mask_needs_nonempty_queue Demo.dla_empty Demo.args_dla 0
           Demo.w0 eq_refl eq_refl Hsky).
Defined.

Lemma apply_masks_frame_witness :
  (1 ∉ items Demo.kept) /\
  exists w',
    @apply_masks Demo.full Demo.maskers Demo.kept 0 Demo.full_read
      = (Ok tt, w') /\
    heap w' !! 1 = heap Demo.full_read !! 1.
Proof.
  assert (1 ∉ items Demo.kept) as Hout.
  { intros H. apply elem_of_cons in H as [H|H]; [discriminate|].
    apply elem_of_cons in H as [H|H]; [discriminate|].
    apply elem_of_nil in H. exact H. }
  split; [exact Hout|].
  destruct (@apply_masks_frame Demo.full Demo.maskers Demo.kept 0
              Demo.full_read) as (w' & Hrun & _ & _ & Hframe).
  exists w'. split; [exact Hrun|]. exact (Hframe 1 Hout).
Defined.

Lemma kept_spectra_ordered_and_stored_witness :
  @mpi_read_spectra_local_queue Demo.full Demo.queue Demo.args 0 Demo.w0
    = (Ok Demo.kept, Demo.full_read) /\
  StronglySorted lt (items Demo.kept) /\
  NoDup (items Demo.kept).
Proof.
  assert (@mpi_read_spectra_local_queue Demo.full Demo.queue Demo.args 0
            Demo.w0 = (Ok Demo.kept, Demo.full_read)) as H
    by (vm_compute; reflexivity).
  split; [exact H|].
  destruct (@kept_spectra_ordered_and_stored Demo.full Demo.queue Demo.args
              0 Demo.w0 Demo.kept Demo.full_read H)
    as (_ & Hsorted & Hnd & _).
  split; [exact Hsorted|exact Hnd].
Defined.

Lemma reduce_reports_kept_count_witness :
  @mpi_read_spectra_local_queue Demo.full Demo.queue Demo.args 0 Demo.w0
    = (Ok Demo.kept, Demo.full_read) /\
  exists es,
    log Demo.full_read = log Demo.w0 ++ es /\
    List.filter is_reduce es = [EvCall (c_comm_reduce 2)].
Proof.
  assert (@mpi_read_spectra_local_queue Demo.full Demo.queue Demo.args 0
            Demo.w0 = (Ok Demo.kept, Demo.full_read)) as H
    by (vm_compute; reflexivity).
  split; [exact H|].
  exact (@reduce_reports_kept_count Demo.full Demo.queue Demo.args 0
           Demo.w0 (Ok Demo.kept) Demo.full_read H).
Defined.

Lemma remove_short_spectra_idempotent_witness :
  @remove_short_spectra Demo.full Demo.kept 1040 1200 (Some 0.2%float) 0
    Demo.full_read = (Ok Demo.cut, Demo.full_cut) /\
  exists l2 w2,
    @remove_short_spectra Demo.full Demo.cut 1040 1200 (Some 0.2%float) 0
      Demo.full_cut = (Ok l2, w2) /\
    items l2 = items Demo.cut.
Proof.
  assert (@remove_short_spectra Demo.full Demo.kept 1040 1200
            (Some 0.2%float) 0 Demo.full_read
          = (Ok Demo.cut, Demo.full_cut)) as H
    by (vm_compute; reflexivity).
  split; [exact H|].
  destruct (@remove_short_spectra_idempotent Demo.full Demo.kept 1040 1200
              (Some 0.2%float) 0 Demo.full_read Demo.cut Demo.full_cut H)
    as [_ Hidem].
  exact Hidem.
Defined.

Lemma output_dir_created_by_master_only_witness :
  @mpi_run_all Demo.full 0 1 Demo.w0 = (Ok tt, Demo.full_end) /\
  exists es,
    log Demo.full_end = log Demo.w0 ++ es /\
    forall d, EvCall (c_os_makedirs d) ∈ es ->
      0 = 0 /\ Py.truthy_str d = true /\
      exists args, @mpi_parse Demo.full 0 = inr args /\ d = outdir args.
Proof.
  assert (@mpi_run_all Demo.full 0 1 Demo.w0 = (Ok tt, Demo.full_end)) as H
    by (vm_compute; reflexivity).
  split; [exact H|].
  exact (@output_dir_created_by_master_only Demo.full 0 1 Demo.w0 _ _ H).
Defined.

Lemma optional_steps_follow_options_witness :
  @mpi_run_all Demo.plain 0 1 Demo.w0
    = (Ok tt, (@mpi_run_all Demo.plain 0 1 Demo.w0).2) /\
  exists es,
    log (@mpi_run_all Demo.plain 0 1 Demo.w0).2 = log Demo.w0 ++ es /\
    forall r v, EvMethod r (coadd_arms_forest v) ∈ es ->
      exists args, @mpi_parse Demo.plain 0 = inr args /\
                   coadd_arms args = true.
Proof.
  assert (@mpi_run_all Demo.plain 0 1 Demo.w0
          = (Ok tt, (@mpi_run_all Demo.plain 0 1 Demo.w0).2)) as H
    by (vm_compute; reflexivity).
  split; [exact H|].
  destruct (@optional_steps_follow_options Demo.plain 0 1 Demo.w0 _ _ H)
    as (es & Hlog & Hcoadd & _).
  exists es. split; [exact Hlog|exact Hcoadd].
Defined.

Lemma masks_follow_options_witness :
  @mpi_run_all Demo.full 0 1 Demo.w0 = (Ok tt, Demo.full_end) /\
  exists es,
    log Demo.full_end = log Demo.w0 ++ es /\
    forall f t lim, EvCall (c_DLAMask f t lim) ∈ es -> lim = 0.8%float.
Proof.
  assert (@mpi_run_all Demo.full 0 1 Demo.w0 = (Ok tt, Demo.full_end)) as H
    by (vm_compute; reflexivity).
  split; [exact H|].
  destruct (@masks_follow_options Demo.full 0 1 Demo.w0 _ _ H)
    as (es & Hlog & Hes).
  exists es. split; [exact Hlog|].
  intros f t lim Hin. exact (proj1 (Hes _ Hin)).
Defined.

Lemma error_logged_iff_status_one_witness :
  @main Demo.empty Demo.w0 = (Ok 1%Z, Demo.empty_main_end) /\
  exists es,
    log Demo.empty_main_end = log Demo.w0 ++ es /\
    exists msg, EvLog "error" msg ∈ es.
Proof.
  assert (@main Demo.empty Demo.w0 = (Ok 1%Z, Demo.empty_main_end))
    as H by (vm_compute; reflexivity).
  split; [exact H|].
  destruct (@error_logged_iff_status_one Demo.empty Demo.w0 _ _ H)
    as (es & Hlog & Hiff).
  exists es. split; [exact Hlog|]. exact (proj2 Hiff eq_refl).
Defined.

Lemma saved_spectra_sublist_of_read_witness :
  @mpi_run_all Demo.full 0 1 Demo.w0 = (Ok tt, Demo.full_end) /\
  exists R,
    @complete_run Demo.full 0 1 Demo.w0 Demo.full_end R /\
    sublist (run_valid R) (items (run_kept R)) /\
    NoDup (run_valid R).
Proof.
  assert (@mpi_run_all Demo.full 0 1 Demo.w0 = (Ok tt, Demo.full_end)) as H
    by (vm_compute; reflexivity).
  split; [exact H|].
  destruct (@saved_spectra_sublist_of_read Demo.full 0 1 Demo.w0 _ H)
    as (R & HR & Hv & _ & _ & Hnd).
  exists R. split; [exact HR|]. split; [exact Hv|exact Hnd].
Defined.

Lemma excluded_spectra_frozen_witness :
  @mpi_run_all Demo.full 0 1 Demo.w0 = (Ok tt, Demo.full_end) /\
  exists R,
    @complete_run Demo.full 0 1 Demo.w0 Demo.full_end R /\
    length (heap Demo.full_end) = length (heap (w_read R)).
Proof.
  assert (@mpi_run_all Demo.full 0 1 Demo.w0 = (Ok tt, Demo.full_end)) as H
    by (vm_compute; reflexivity).
  split; [exact H|].
  destruct (@excluded_spectra_frozen Demo.full 0 1 Demo.w0 _ H)
    as (R & HR & Hlen & _).
  exists R. split; [exact HR|exact Hlen].
Defined.

Lemma failed_run_saves_nothing_witness :
  @mpi_run_all Demo.empty 0 1 Demo.w0
    = (Raise (Py.mkExn Py.IndexError "list index out of range"),
       Demo.empty_end) /\
  exists es,
    log Demo.empty_end = log Demo.w0 ++ es /\
    forall l d v b k, EvCall (c_save_deltas l d v b k) ∈ es ->
      exists h, @save_deltas Demo.empty (deref h l) d v b k
                = Some (Py.mkExn Py.IndexError "list index out of range").
Proof.
  assert (@mpi_run_all Demo.empty 0 1 Demo.w0
          = (Raise (Py.mkExn Py.IndexError "list index out of range"),
             Demo.empty_end)) as H by (vm_compute; reflexivity).
  split; [exact H|].
  exact (@failed_run_saves_nothing Demo.empty 0 1 Demo.w0 _ _ H).
Defined.

Lemma empty_partition_run_witness :
  @mpi_parse Demo.plain_empty 0 = inr Demo.args_plain /\
  @mpi_read_local_qso_catalog Demo.plain_empty (catalog Demo.args_plain) 0 1
    (mock_analysis Demo.args_plain) (keep_surveys Demo.args_plain) = inr [] /\
  @mpi_run_all Demo.plain_empty 0 1 Demo.w0 = (Ok tt, Demo.plain_empty_end) /\
  heap Demo.plain_empty_end = heap Demo.w0 /\
  EvCall (c_iterate []) ∈ log Demo.plain_empty_end.
Proof.
  assert (@mpi_run_all Demo.plain_empty 0 1 Demo.w0
          = (Ok tt, Demo.plain_empty_end)) as H
    by (vm_compute; reflexivity).
  split; [reflexivity|]. split; [reflexivity|]. split; [exact H|].
  destruct (@empty_partition_run Demo.plain_empty 0 1 Demo.w0
              Demo.plain_empty_end Demo.args_plain eq_refl eq_refl H)
    as (Hheap & Hiter & _).
  split; [exact Hheap|exact Hiter].
Defined.


